(** * SeleniumURLLoader (langchain/document_loaders/url_selenium.py)

    A shallow embedding of the loader and of the two external libraries it
    drives (the selenium WebDriver and unstructured's [partition_html]),
    followed by the properties of the loader that the design document
    states.

    Python objects become records, the exception mechanism becomes a sum
    type threaded through a state-and-error monad, and the outside world
    (browser processes, the network, the logger) becomes a trace of events
    that the external calls append to and may depend on. *)

From stdpp Require Import base option list strings gmap.
From Stdlib Require Import Ascii NArith Lia.

Local Open Scope string_scope.
Local Open Scope list_scope.

(** ** Python values *)

(** An exception instance: its class name and its message ([str(e)]).
    The model covers the exceptions that derive from [Exception], which are
    the ones the [except Exception] clause of [load] catches. *)
Record Exn := mkExn { exn_type : string; exn_msg : string }.

Definition ValueError (msg : string) : Exn := mkExn "ValueError" msg.

Global Instance Exn_eq_dec : EqDecision Exn.
Proof. solve_decision. Defined.

(** The outcome of a Python expression: either it raises or it has a value. *)
Definition result (A : Type) : Type := Exn + A.

Definition is_ok {A} (r : result A) : bool :=
  match r with inl _ => false | inr _ => true end.

(** ["\n"] *)
Definition newline : string := String (ascii_of_N 10) EmptyString.

(** [str.lower()] on the bytes of the string.  Only the ASCII capitals are
    touched; bytes of a multi-byte character are left as they are, and no
    character outside ASCII lowers to one of the letters of ["chrome"] or
    ["firefox"], so comparisons against these two words agree with
    Python's. *)
Definition lower_ascii (c : ascii) : ascii :=
  let n := N_of_ascii c in
  if ((65 <=? n) && (n <=? 90))%N then ascii_of_N (n + 32) else c.

Fixpoint lower (s : string) : string :=
  match s with
  | EmptyString => EmptyString
  | String c rest => String (lower_ascii c) (lower rest)
  end.

(** [sep.join(parts)] *)
Fixpoint join (sep : string) (parts : list string) : string :=
  match parts with
  | [] => ""
  | [x] => x
  | x :: rest => x +:+ sep +:+ join sep rest
  end.

(** A list comprehension [[f(x) for x in xs]] whose element expression may
    raise: elements are evaluated left to right and the first exception
    ends the evaluation. *)
Fixpoint comprehension {A B} (f : A → result B) (xs : list A) : result (list B) :=
  match xs with
  | [] => inr []
  | x :: rest =>
      match f x with
      | inl e => inl e
      | inr y =>
          match comprehension f rest with
          | inl e => inl e
          | inr ys => inr (y :: ys)
          end
      end
  end.

(** ** Documents *)

(** Modelled from the spec: the class [Document] of
    [langchain.docstore.document], which the loader imports but which is
    not part of the sources at hand.  The design document describes it as
    the record [{ page_content: string, metadata: { source: string } }];
    the metadata is the Python dict the loader builds. *)
Record Document := mkDocument {
  page_content : string;
  metadata : gmap string string
}.

Definition source (d : Document) : option string := metadata d !! "source".

(** ** The loader object *)

Record SeleniumURLLoader := mkLoader {
  urls : list string;
  continue_on_failure : bool;
  browser : string;
  executable_path : option string;
  headless : bool
}.

(** Outcome of the two [import] statements of the constructor: whether the
    package can be imported. *)
Record Packages := mkPackages {
  selenium : bool;
  unstructured : bool
}.

Definition __init__ (pk : Packages)
    (urls : list string) (continue_on_failure : bool) (browser : string)
    (executable_path : option string) (headless : bool)
  : result SeleniumURLLoader :=
  if negb (selenium pk) then
    inl (ValueError
      ("selenium package not found, please install it with " +:+
       "`pip install selenium`"))
  else if negb (unstructured pk) then
    inl (ValueError
      ("unstructured package not found, please install it with " +:+
       "`pip install unstructured`"))
  else
    inr {| urls := urls;
           continue_on_failure := continue_on_failure;
           browser := browser;
           executable_path := executable_path;
           headless := headless |}.

(** ** The outside world *)

Inductive Browser := Chrome | Firefox.

Global Instance Browser_eq_dec : EqDecision Browser.
Proof. solve_decision. Defined.

(** A WebDriver handle: which browser it drives and the session it owns. *)
Record WebDriver := mkDriver { kind : Browser; session : nat }.

Global Instance WebDriver_eq_dec : EqDecision WebDriver.
Proof. solve_decision. Defined.

(** What the loader does to the world, in order. *)
Inductive Event :=
  | EvLaunch (b : Browser) (arguments : list string) (exe : option string)
  | EvGet (d : WebDriver) (url : string)
  | EvPageSource (d : WebDriver)
  | EvQuit (d : WebDriver)
  | EvLogError (msg : string).

Global Instance Event_eq_dec : EqDecision Event.
Proof. solve_decision. Defined.

Definition Trace := list Event.

(** The behaviour of the installed selenium and unstructured packages.
    Every call into the browser may depend on all that happened before and
    may raise ([Some e], [inl e]). *)
Record Env := mkEnv {
  Element : Type;
  (** [Chrome(...)] / [Firefox(...)]: start a browser process *)
  launch : Trace → Browser → list string → option string → option Exn;
  (** [driver.get(url)] *)
  driver_get : Trace → WebDriver → string → option Exn;
  (** [driver.page_source] *)
  driver_page_source : Trace → WebDriver → result string;
  (** [driver.quit()] *)
  driver_quit : Trace → WebDriver → option Exn;
  (** [partition_html(text=...)] *)
  partition_html : string → result (list Element);
  (** [str(el)] *)
  str : Element → result string
}.

(** ** The state-and-error monad of the methods *)

(** The state a method runs in: the receiver [self] and the world. *)
Record Heap := mkHeap { self : SeleniumURLLoader; trace : Trace }.

Definition M (A : Type) : Type := Heap → Heap * result A.

Definition ret {A} (x : A) : M A := λ h, (h, inr x).

Definition raise {A} (e : Exn) : M A := λ h, (h, inl e).

Definition bind {A B} (m : M A) (k : A → M B) : M B :=
  λ h, match m h with
       | (h', inr x) => k x h'
       | (h', inl e) => (h', inl e)
       end.

(** [try: m  except Exception as e: handler e] *)
Definition try_except {A} (m : M A) (handler : Exn → M A) : M A :=
  λ h, match m h with
       | (h', inr x) => (h', inr x)
       | (h', inl e) => handler e h'
       end.

Declare Scope py_scope.
Delimit Scope py_scope with py.
Notation "x <- m ;; k" := (bind m (λ x, k))
  (at level 100, m at next level, right associativity) : py_scope.
Notation "m ;;; k" := (bind m (λ _, k))
  (at level 100, right associativity) : py_scope.
Local Open Scope py_scope.

Definition get_self : M SeleniumURLLoader := λ h, (h, inr (self h)).

Definition emit (ev : Event) : M unit :=
  λ h, (mkHeap (self h) (trace h ++ [ev]), inr tt).

(** A value computed by a library function that does not touch the world. *)
Definition lift {A} (r : result A) : M A := λ h, (h, r).

(** A call into the world: the event is recorded, then the call raises or
    returns as the environment decides from the history before the call. *)
Definition call (ev : Event) (outcome : Trace → option Exn) : M unit :=
  λ h, let h' := mkHeap (self h) (trace h ++ [ev]) in
       match outcome (trace h) with
       | Some e => (h', inl e)
       | None => (h', inr tt)
       end.

Definition call_value {A} (ev : Event) (outcome : Trace → result A) : M A :=
  λ h, (mkHeap (self h) (trace h ++ [ev]), outcome (trace h)).

(** [logger.error(msg)] *)
Definition logger_error (msg : string) : M unit := emit (EvLogError msg).

Section Loader.

Variable E : Env.

(** The constructor of a driver class.  The session is numbered by the
    position of its launch in the trace. *)
Definition new_driver (b : Browser) (exe : option string)
    (options : list string) : M WebDriver :=
  λ h, let d := mkDriver b (length (trace h)) in
       bind (call (EvLaunch b options exe)
                  (λ tr, launch E tr b options exe))
            (λ _, ret d) h.

Definition get (driver : WebDriver) (url : string) : M unit :=
  call (EvGet driver url) (λ tr, driver_get E tr driver url).

Definition page_source (driver : WebDriver) : M string :=
  call_value (EvPageSource driver) (λ tr, driver_page_source E tr driver).

Definition quit (driver : WebDriver) : M unit :=
  call (EvQuit driver) (λ tr, driver_quit E tr driver).

(** [options.add_argument(arg)] *)
Definition add_argument (options : list string) (arg : string) : list string :=
  options ++ [arg].

Definition _get_driver : M WebDriver :=
  self <- get_self;;
  if decide (lower (browser self) = "chrome") then
    let chrome_options := [] in
    let chrome_options :=
      if headless self then add_argument chrome_options "--headless"
      else chrome_options in
    match executable_path self with
    | None => new_driver Chrome None chrome_options
    | Some path => new_driver Chrome (Some path) chrome_options
    end
  else if decide (lower (browser self) = "firefox") then
    let firefox_options := [] in
    let firefox_options :=
      if headless self then add_argument firefox_options "--headless"
      else firefox_options in
    match executable_path self with
    | None => new_driver Firefox None firefox_options
    | Some path => new_driver Firefox (Some path) firefox_options
    end
  else
    raise (ValueError "Invalid browser specified. Use 'chrome' or 'firefox'.").

(** Lines 98-102 and the construction of the [Document] of line 103. *)
Definition fetch_document (driver : WebDriver) (url : string) : M Document :=
  get driver url;;;
  page_content <- page_source driver;;
  elements <- lift (partition_html E page_content);;
  strs <- lift (comprehension (str E) elements);;
  let text := join (newline +:+ newline) strs in
  let metadata : gmap string string := {[ "source" := url ]} in
  ret (mkDocument text metadata).

(** The handler of the [except Exception as e] clause. *)
Definition on_failure (url : string) (docs : list Document) (e : Exn)
  : M (list Document) :=
  self <- get_self;;
  if continue_on_failure self then
    logger_error ("Error fetching or processing " +:+ url +:+
                  ", exception: " +:+ exn_msg e);;;
    ret docs
  else
    raise e.

(** The [for url in self.urls] loop; [docs] is the list built so far. *)
Fixpoint for_url (driver : WebDriver) (us : list string)
    (docs : list Document) : M (list Document) :=
  match us with
  | [] => ret docs
  | url :: rest =>
      docs <- try_except
                (doc <- fetch_document driver url;;
                 ret (docs ++ [doc]))
                (on_failure url docs);;
      for_url driver rest docs
  end.

Definition load : M (list Document) :=
  let docs : list Document := [] in
  driver <- _get_driver;;
  self <- get_self;;
  docs <- for_url driver (urls self) docs;;
  quit driver;;;
  ret docs.

End Loader.

(** ** Observations on traces *)

(** The URLs the browser was sent to, in order. *)
Definition navigated (tr : Trace) : list string :=
  omap (λ ev, match ev with EvGet _ url => Some url | _ => None end) tr.

(** The sessions that were asked to close, in order. *)
Definition closed (tr : Trace) : list WebDriver :=
  omap (λ ev, match ev with EvQuit d => Some d | _ => None end) tr.

(** How many times the session of [d] was closed. *)
Definition close_count (d : WebDriver) (tr : Trace) : nat :=
  length (filter (λ d', d' = d) (closed tr)).

(** The browser processes that were started, in order: which browser, with
    which option arguments and which executable. *)
Definition launched (tr : Trace) : list (Browser * list string * option string) :=
  omap (λ ev, match ev with
              | EvLaunch b arguments exe => Some (b, arguments, exe)
              | _ => None
              end) tr.

(** The error messages logged, in order. *)
Definition logged (tr : Trace) : list string :=
  omap (λ ev, match ev with EvLogError msg => Some msg | _ => None end) tr.

(** ** The run of the loop, URL by URL

    What the design document calls a URL that succeeds or fails is read off
    the loop itself: each URL of the list is attempted in the state the
    attempts before it have left. *)

Section Run.

Variable E : Env.

(** The state in which the loop goes on to the next URL when failures are
    logged and skipped. *)
Definition after_url (driver : WebDriver) (url : string) (h : Heap) : Heap :=
  match fetch_document E driver url h with
  | (h1, inr _) => h1
  | (h1, inl e) => (on_failure url [] e h1).1
  end.

(** One pass of the loop body: the URL, the state it was attempted in and
    what fetching and assembling its document gave. *)
Record Attempt := mkAttempt {
  a_url : string;
  a_before : Heap;
  a_result : result Document
}.

Fixpoint attempts (driver : WebDriver) (us : list string) (h : Heap)
  : list Attempt :=
  match us with
  | [] => []
  | url :: rest =>
      mkAttempt url h (fetch_document E driver url h).2
        :: attempts driver rest (after_url driver url h)
  end.

(** The state when the loop is over. *)
Definition loop_end (driver : WebDriver) (us : list string) (h : Heap) : Heap :=
  foldl (λ h url, after_url driver url h) h us.

(** The documents of the attempts that succeeded, in order. *)
Definition documents (rs : list Attempt) : list Document :=
  omap (λ a, match a_result a with inr d => Some d | inl _ => None end) rs.

(** The URLs whose attempt succeeded, in order. *)
Definition survivors (rs : list Attempt) : list string :=
  omap (λ a, if is_ok (a_result a) then Some (a_url a) else None) rs.

(** The URLs whose attempt failed, in order. *)
Definition failed (rs : list Attempt) : list string :=
  omap (λ a, if is_ok (a_result a) then None else Some (a_url a)) rs.

(** The text the design document prescribes for a page: the elements the
    partitioner finds in the markup, each turned into a string, joined by
    blank lines. *)
Definition rendered_text (html : string) (text : string) : Prop :=
  ∃ (elements : list (Element E)) (strs : list string),
    partition_html E html = inr elements ∧
    Forall2 (λ el s, str E el = inr s) elements strs ∧
    text = join (newline +:+ newline) strs.

(** The steps of the loop body at which an attempt can fail. *)
Inductive Step := Navigation | ReadingSource | Partitioning | Assembly.

(** The attempt of [url] in state [h] raises [e] at step [s]. *)
Definition fails_at (driver : WebDriver) (url : string) (h : Heap)
    (e : Exn) (s : Step) : Prop :=
  match s with
  | Navigation => driver_get E (trace h) driver url = Some e
  | ReadingSource =>
      driver_get E (trace h) driver url = None ∧
      driver_page_source E (trace h ++ [EvGet driver url]) driver = inl e
  | Partitioning =>
      driver_get E (trace h) driver url = None ∧
      ∃ html,
        driver_page_source E (trace h ++ [EvGet driver url]) driver = inr html ∧
        partition_html E html = inl e
  | Assembly =>
      driver_get E (trace h) driver url = None ∧
      ∃ html elements,
        driver_page_source E (trace h ++ [EvGet driver url]) driver = inr html ∧
        partition_html E html = inr elements ∧
        comprehension (str E) elements = inl e
  end.

(** An environment in which what a page gives does not depend on what was
    visited before, and in which closing a session does not either. *)
Definition memoryless : Prop :=
  (∀ tr tr' d url, driver_get E tr d url = driver_get E tr' d url) ∧
  (∀ tr tr' d url,
     driver_page_source E (tr ++ [EvGet d url]) d
     = driver_page_source E (tr' ++ [EvGet d url]) d) ∧
  (∀ tr tr' d, driver_quit E tr d = driver_quit E tr' d).

End Run.

(** The same receiver with another list of URLs, another browser name. *)
Definition with_urls (us : list string) (h : Heap) : Heap :=
  mkHeap (mkLoader us (continue_on_failure (self h)) (browser (self h))
                   (executable_path (self h)) (headless (self h)))
         (trace h).

Definition with_browser (name : string) (h : Heap) : Heap :=
  mkHeap (mkLoader (urls (self h)) (continue_on_failure (self h)) name
                   (executable_path (self h)) (headless (self h)))
         (trace h).

(** The line the handler logs for a URL and its exception. *)
Definition log_line (url : string) (e : Exn) : string :=
  "Error fetching or processing " +:+ url +:+ ", exception: " +:+ exn_msg e.

Definition invalid_browser : Exn :=
  ValueError "Invalid browser specified. Use 'chrome' or 'firefox'.".

(** ** A test double

    A browser that always starts and always closes, and a site with two
    pages and one host that cannot be reached. *)
Module TestDouble.

Definition unreachable : Exn :=
  mkExn "WebDriverException" "net::ERR_NAME_NOT_RESOLVED".

Definition last_url (tr : Trace) : option string := last (navigated tr).

Definition markup (url : string) : string :=
  if decide (url = "https://a.test") then "<h1>A</h1><p>alpha</p>"
  else if decide (url = "https://b.test") then "<p>beta</p>"
  else "".

Definition blocks (html : string) : result (list string) :=
  if decide (html = "<h1>A</h1><p>alpha</p>") then inr ["A"; "alpha"]
  else if decide (html = "<p>beta</p>") then inr ["beta"]
  else if decide (html = "") then inr []
  else inl (mkExn "ValueError" "not HTML").

Definition env : Env := {|
  Element := string;
  launch := λ _ _ _ _, None;
  driver_get := λ _ _ url,
    if decide (url = "https://bad.test") then Some unreachable else None;
  driver_page_source := λ tr _,
    match last_url tr with
    | Some url => inr (markup url)
    | None => inr ""
    end;
  driver_quit := λ _ _, None;
  partition_html := blocks;
  str := inr
|}.

Definition three_urls : list string :=
  ["https://a.test"; "https://bad.test"; "https://b.test"].

Definition loader (continue_on_failure : bool) (browser : string)
  : SeleniumURLLoader :=
  mkLoader three_urls continue_on_failure browser None true.

Definition start (continue_on_failure : bool) (browser : string) : Heap :=
  mkHeap (loader continue_on_failure browser) [].

Definition doc_a : Document :=
  mkDocument ("A" +:+ newline +:+ newline +:+ "alpha")
             {[ "source" := "https://a.test" ]}.

Definition doc_b : Document :=
  mkDocument "beta" {[ "source" := "https://b.test" ]}.

End TestDouble.


(** ** Further observations *)

(** The branch [_get_driver] takes for a browser name. *)
Definition browser_kind (name : string) : option Browser :=
  if decide (lower name = "chrome") then Some Chrome
  else if decide (lower name = "firefox") then Some Firefox
  else None.

(** The option arguments [_get_driver] builds from the [headless] field. *)
Definition driver_options (o : SeleniumURLLoader) : list string :=
  if headless o then ["--headless"] else [].

(** The URLs whose attempt failed, each with the exception raised. *)
Definition failures (rs : list Attempt) : list (string * Exn) :=
  omap (λ a, match a_result a with
             | inl e => Some (a_url a, e)
             | inr _ => None
             end) rs.

(** The driver an event is a call on, if any. *)
Definition driver_of (ev : Event) : option WebDriver :=
  match ev with
  | EvGet d _ | EvPageSource d | EvQuit d => Some d
  | EvLaunch _ _ _ | EvLogError _ => None
  end.

(** The drivers the calls of a trace were made on, in order. *)
Definition drivers_used (tr : Trace) : list WebDriver := omap driver_of tr.

(** ** Test doubles that fail

    The site of [TestDouble] behind a browser that cannot be started, and
    behind one that raises when asked to quit. *)
Module Faulty.

Definition not_installed : Exn :=
  mkExn "WebDriverException" "'chromedriver' executable needs to be in PATH".

Definition gone : Exn :=
  mkExn "WebDriverException" "chrome not reachable".

Definition no_browser : Env := {|
  Element := string;
  launch := λ _ _ _ _, Some not_installed;
  driver_get := driver_get TestDouble.env;
  driver_page_source := driver_page_source TestDouble.env;
  driver_quit := driver_quit TestDouble.env;
  partition_html := TestDouble.blocks;
  str := inr
|}.

Definition stuck : Env := {|
  Element := string;
  launch := launch TestDouble.env;
  driver_get := driver_get TestDouble.env;
  driver_page_source := driver_page_source TestDouble.env;
  driver_quit := λ _ _, Some gone;
  partition_html := TestDouble.blocks;
  str := inr
|}.

End Faulty.

(** What the loop itself may do to the world for a driver: send it to a
    URL, read its page source, log an error. *)
Definition loop_event (driver : WebDriver) (ev : Event) : bool :=
  match ev with
  | EvGet d _ | EvPageSource d => bool_decide (d = driver)
  | EvLogError _ => true
  | EvLaunch _ _ _ | EvQuit _ => false
  end.

(** * Properties *)

(** ** Strings and comprehensions *)

Lemma lower_ascii_idemp c : lower_ascii (lower_ascii c) = lower_ascii c.
Proof. destruct c as [[] [] [] [] [] [] [] []]; reflexivity. Qed.

Lemma lower_idemp s : lower (lower s) = lower s.
Proof.
  induction s as [|c s IH]; simpl; [reflexivity|].
  by rewrite lower_ascii_idemp, IH.
Qed.

Lemma comprehension_Forall2 {A B} (f : A → result B) xs ys :
  comprehension f xs = inr ys ↔ Forall2 (λ x y, f x = inr y) xs ys.
Proof.
  revert ys. induction xs as [|x xs IH]; intros ys; simpl.
  - split.
    + intros [= <-]. constructor.
    + intros Hf. by inversion Hf.
  - destruct (f x) as [e|y] eqn:Hx.
    + split; [done|]. intros Hf. inversion Hf; congruence.
    + destruct (comprehension f xs) as [e|ys'] eqn:Hxs.
      * split; [done|]. intros Hf. inversion Hf as [|? y' ? ys'' Hy Hrest]; subst.
        apply IH in Hrest. congruence.
      * split.
        -- intros [= <-]. constructor; [done|]. by apply IH.
        -- intros Hf. inversion Hf as [|? y' ? ys'' Hy Hrest]; subst.
           apply IH in Hrest. congruence.
Qed.

(** ** Observations are additive *)

Lemma navigated_app tr tr' : navigated (tr ++ tr') = navigated tr ++ navigated tr'.
Proof. apply omap_app. Qed.

Lemma closed_app tr tr' : closed (tr ++ tr') = closed tr ++ closed tr'.
Proof. apply omap_app. Qed.

Lemma launched_app tr tr' : launched (tr ++ tr') = launched tr ++ launched tr'.
Proof. apply omap_app. Qed.

Lemma close_count_app d tr tr' :
  close_count d (tr ++ tr') = close_count d tr + close_count d tr'.
Proof. unfold close_count. by rewrite closed_app, filter_app, length_app. Qed.

Section Properties.

Variable E : Env.

Implicit Types (h : Heap) (driver : WebDriver) (url : string).
Implicit Types (us : list string) (docs : list Document) (e : Exn).

(** ** One URL *)

(** The body of the [try], step by step. *)
Lemma fetch_document_unfold driver url h :
  fetch_document E driver url h =
    let tr1 := trace h ++ [EvGet driver url] in
    let tr2 := tr1 ++ [EvPageSource driver] in
    match driver_get E (trace h) driver url with
    | Some e => (mkHeap (self h) tr1, inl e)
    | None =>
        match driver_page_source E tr1 driver with
        | inl e => (mkHeap (self h) tr2, inl e)
        | inr html =>
            match partition_html E html with
            | inl e => (mkHeap (self h) tr2, inl e)
            | inr elements =>
                match comprehension (str E) elements with
                | inl e => (mkHeap (self h) tr2, inl e)
                | inr strs =>
                    (mkHeap (self h) tr2,
                     inr (mkDocument (join (newline +:+ newline) strs)
                                     {[ "source" := url ]}))
                end
            end
        end
    end.
Proof.
  unfold fetch_document, get, page_source, call, call_value, lift, bind, ret.
  simpl.
  destruct (driver_get E (trace h) driver url); [reflexivity|].
  destruct (driver_page_source E _ driver); [reflexivity|].
  destruct (partition_html E _); [reflexivity|].
  destruct (comprehension _ _); reflexivity.
Qed.

Lemma fetch_document_self driver url h :
  self (fetch_document E driver url h).1 = self h.
Proof.
  rewrite fetch_document_unfold. simpl.
  repeat case_match; reflexivity.
Qed.

(** A fetch sends the browser to its URL, once, and closes nothing. *)
Lemma fetch_document_navigated driver url h :
  navigated (trace (fetch_document E driver url h).1)
  = navigated (trace h) ++ [url].
Proof.
  rewrite fetch_document_unfold. simpl.
  repeat case_match; simpl; rewrite ?navigated_app; simpl;
    by rewrite ?app_nil_r.
Qed.

Lemma fetch_document_closed driver url h :
  closed (trace (fetch_document E driver url h).1) = closed (trace h).
Proof.
  rewrite fetch_document_unfold. simpl.
  repeat case_match; simpl; rewrite ?closed_app; simpl;
    by rewrite ?app_nil_r.
Qed.

(** A document comes out only when all four steps went through, and it is
    then the whole document. *)
Lemma fetch_document_ok driver url h h' doc :
  fetch_document E driver url h = (h', inr doc) →
  driver_get E (trace h) driver url = None ∧
  ∃ html,
    driver_page_source E (trace h ++ [EvGet driver url]) driver = inr html ∧
    rendered_text E html (page_content doc) ∧
    metadata doc = {[ "source" := url ]}.
Proof.
  rewrite fetch_document_unfold. simpl.
  destruct (driver_get E (trace h) driver url); [done|].
  destruct (driver_page_source E _ driver) as [|html]; [done|].
  destruct (partition_html E html) as [|elements] eqn:Hp; [done|].
  destruct (comprehension _ elements) as [|strs] eqn:Hc; [done|].
  intros [= <- <-]. split; [done|]. exists html. split; [done|].
  split; [|done]. exists elements, strs.
  split; [done|]. split; [|done]. by apply comprehension_Forall2.
Qed.

(** ** The failure policy *)

Lemma on_failure_continue url docs e h :
  continue_on_failure (self h) = true →
  on_failure url docs e h
  = (mkHeap (self h) (trace h ++ [EvLogError (log_line url e)]), inr docs).
Proof.
  intros Hc. unfold on_failure, bind, get_self. simpl. rewrite Hc.
  reflexivity.
Qed.

Lemma on_failure_abort url docs e h :
  continue_on_failure (self h) = false →
  on_failure url docs e h = (h, inl e).
Proof.
  intros Hc. unfold on_failure, bind, get_self. simpl. rewrite Hc.
  reflexivity.
Qed.

Lemma on_failure_self url docs e h : self (on_failure url docs e h).1 = self h.
Proof.
  destruct (continue_on_failure (self h)) eqn:Hc.
  - by rewrite on_failure_continue.
  - by rewrite on_failure_abort.
Qed.

Lemma after_url_self driver url h : self (after_url E driver url h) = self h.
Proof.
  unfold after_url. pose proof (fetch_document_self driver url h) as Hs.
  destruct (fetch_document E driver url h) as [h1 [e|doc]]; simpl in *.
  - by rewrite on_failure_self.
  - done.
Qed.

Lemma loop_end_self driver us h : self (loop_end E driver us h) = self h.
Proof.
  revert h. induction us as [|url us IH]; intros h; simpl; [done|].
  unfold loop_end in *. simpl. by rewrite IH, after_url_self.
Qed.

Lemma loop_end_cons driver url us h :
  loop_end E driver (url :: us) h = loop_end E driver us (after_url E driver url h).
Proof. reflexivity. Qed.

(** ** The loop *)

Lemma for_url_cons driver url rest docs h :
  for_url E driver (url :: rest) docs h =
    match fetch_document E driver url h with
    | (h1, inr doc) => for_url E driver rest (docs ++ [doc]) h1
    | (h1, inl e) =>
        match on_failure url docs e h1 with
        | (h2, inr docs') => for_url E driver rest docs' h2
        | (h2, inl e') => (h2, inl e')
        end
    end.
Proof.
  simpl. unfold bind, try_except, ret.
  destruct (fetch_document E driver url h) as [h1 [e|doc]]; simpl.
  - destruct (on_failure url docs e h1) as [h2 [e'|docs']]; reflexivity.
  - reflexivity.
Qed.

(** While failures are logged and skipped the loop runs to the end of the
    list and adds the documents of the attempts that succeeded. *)
Lemma for_url_continue driver us docs h :
  continue_on_failure (self h) = true →
  for_url E driver us docs h
  = (loop_end E driver us h, inr (docs ++ documents (attempts E driver us h))).
Proof.
  revert docs h. induction us as [|url us IH]; intros docs h Hc.
  - simpl. unfold ret. by rewrite app_nil_r.
  - rewrite for_url_cons, loop_end_cons. simpl attempts. unfold after_url.
    pose proof (fetch_document_self driver url h) as Hs.
    destruct (fetch_document E driver url h) as [h1 [e|doc]] eqn:Hf;
      simpl in Hs.
    + rewrite on_failure_continue by congruence.
      rewrite on_failure_continue by congruence. simpl.
      rewrite IH by (simpl; congruence). reflexivity.
    + rewrite IH by congruence. unfold documents. simpl.
      by rewrite <- app_assoc.
Qed.

(** Whatever the policy, the loop runs to the end when no attempt fails. *)
Lemma for_url_all_ok driver us docs h :
  Forall (λ a, is_ok (a_result a) = true) (attempts E driver us h) →
  for_url E driver us docs h
  = (loop_end E driver us h, inr (docs ++ documents (attempts E driver us h))).
Proof.
  revert docs h. induction us as [|url us IH]; intros docs h Hall.
  - simpl. unfold ret. by rewrite app_nil_r.
  - rewrite for_url_cons, loop_end_cons.
    simpl attempts in *. apply Forall_cons in Hall as [Hok Hall].
    unfold after_url in *. simpl in Hok.
    destruct (fetch_document E driver url h) as [h1 [e|doc]] eqn:Hf;
      simpl in *; [done|].
    rewrite IH by done. unfold documents. simpl.
    by rewrite <- app_assoc.
Qed.

(** When failures are fatal the loop stops at the first attempt that fails,
    in the state that attempt has left, with the exception it raised. *)
Lemma for_url_abort driver us docs h i a e :
  continue_on_failure (self h) = false →
  attempts E driver us h !! i = Some a →
  a_result a = inl e →
  (∀ j b, j < i → attempts E driver us h !! j = Some b → is_ok (a_result b) = true) →
  for_url E driver us docs h = (loop_end E driver (take (S i) us) h, inl e).
Proof.
  revert docs h i. induction us as [|url us IH]; intros docs h i Hc Hi Ha Hbefore.
  - done.
  - rewrite for_url_cons. simpl take. rewrite loop_end_cons.
    simpl attempts in *.
    pose proof (fetch_document_self driver url h) as Hs.
    destruct i as [|i].
    + simpl in Hi. injection Hi as <-. simpl in Ha. unfold after_url.
      destruct (fetch_document E driver url h) as [h1 [e'|doc]] eqn:Hf;
        simpl in *; [|done].
      injection Ha as ->.
      rewrite on_failure_abort by congruence.
      rewrite on_failure_abort by congruence. reflexivity.
    + assert (Hok := Hbefore 0 _ ltac:(lia) eq_refl). simpl in Hok.
      simpl in Hi. unfold after_url in *.
      destruct (fetch_document E driver url h) as [h1 [e'|doc]] eqn:Hf;
        simpl in *; [done|].
      apply IH; [congruence|done|done|].
      intros j b Hj Hb. apply (Hbefore (S j) b); [lia|done].
Qed.

(** Either no attempt fails or there is a first one that does. *)
Lemma first_failure (rs : list Attempt) :
  Forall (λ a, is_ok (a_result a) = true) rs ∨
  ∃ i a e, rs !! i = Some a ∧ a_result a = inl e ∧
           ∀ j b, j < i → rs !! j = Some b → is_ok (a_result b) = true.
Proof.
  induction rs as [|a rs IH]; [left; constructor|].
  destruct (a_result a) as [e|doc] eqn:Ha.
  - right. exists 0, a, e. split; [done|]. split; [done|]. intros; lia.
  - destruct IH as [Hall|(i & b & e & Hi & Hb & Hbefore)].
    + left. constructor; [by rewrite Ha|done].
    + right. exists (S i), b, e. split; [done|]. split; [done|].
      intros [|j] c Hj Hc; simpl in Hc.
      * injection Hc as <-. by rewrite Ha.
      * apply (Hbefore j); [lia|done].
Qed.

(** ** Attempts, survivors and failures *)

Lemma attempts_urls driver us h : map a_url (attempts E driver us h) = us.
Proof.
  revert h. induction us as [|url us IH]; intros h; simpl; [done|].
  by rewrite IH.
Qed.

Lemma attempts_length driver us h : length (attempts E driver us h) = length us.
Proof. by rewrite <- (attempts_urls driver us h) at 2; rewrite length_map. Qed.

Lemma documents_failed_length (rs : list Attempt) :
  length (documents rs) + length (failed rs) = length rs.
Proof.
  induction rs as [|a rs IH]; simpl; [done|].
  unfold documents, failed in *. simpl.
  destruct (a_result a); simpl; lia.
Qed.

Lemma documents_survivors_length (rs : list Attempt) :
  length (documents rs) = length (survivors rs).
Proof.
  induction rs as [|a rs IH]; simpl; [done|].
  unfold documents, survivors in *. simpl.
  destruct (a_result a); simpl; lia.
Qed.

Lemma survivors_sublist (rs : list Attempt) :
  sublist (survivors rs) (map a_url rs).
Proof.
  induction rs as [|a rs IH]; simpl; [constructor|].
  unfold survivors in *. simpl.
  destruct (is_ok (a_result a)); simpl; by constructor.
Qed.

Lemma attempts_metadata driver us h :
  map metadata (documents (attempts E driver us h))
  = map (λ url, {[ "source" := url ]}) (survivors (attempts E driver us h)).
Proof.
  revert h. induction us as [|url us IH]; intros h; simpl; [done|].
  unfold documents, survivors in *. simpl.
  destruct (fetch_document E driver url h) as [h1 [e|doc]] eqn:Hf; simpl.
  - apply IH.
  - apply fetch_document_ok in Hf as (_ & html & _ & _ & Hm).
    by rewrite Hm, IH.
Qed.

(** Every attempt that gave a document read a page and rendered it. *)
Lemma attempts_rendered driver us h :
  Forall (λ a, ∀ doc, a_result a = inr doc →
            ∃ html,
              driver_page_source E
                (trace (a_before a) ++ [EvGet driver (a_url a)]) driver
              = inr html ∧
              rendered_text E html (page_content doc))
         (attempts E driver us h).
Proof.
  revert h. induction us as [|url us IH]; intros h; simpl; [constructor|].
  constructor; [|apply IH]. simpl. intros doc Hdoc.
  destruct (fetch_document E driver url h) as [h1 r] eqn:Hf. simpl in Hdoc.
  subst r. apply fetch_document_ok in Hf as (_ & html & Hsrc & Hr & _).
  by exists html.
Qed.

(** ** What the loop does to the world *)

Lemma after_url_navigated driver url h :
  navigated (trace (after_url E driver url h)) = navigated (trace h) ++ [url].
Proof.
  unfold after_url.
  pose proof (fetch_document_navigated driver url h) as Hn.
  destruct (fetch_document E driver url h) as [h1 [e|doc]]; simpl in *; [|done].
  destruct (continue_on_failure (self h1)) eqn:Hc.
  - rewrite on_failure_continue by done. simpl.
    rewrite navigated_app, Hn. simpl. by rewrite app_nil_r.
  - by rewrite on_failure_abort.
Qed.

Lemma after_url_closed driver url h :
  closed (trace (after_url E driver url h)) = closed (trace h).
Proof.
  unfold after_url.
  pose proof (fetch_document_closed driver url h) as Hn.
  destruct (fetch_document E driver url h) as [h1 [e|doc]]; simpl in *; [|done].
  destruct (continue_on_failure (self h1)) eqn:Hc.
  - rewrite on_failure_continue by done. simpl.
    rewrite closed_app, Hn. simpl. by rewrite app_nil_r.
  - by rewrite on_failure_abort.
Qed.

Lemma loop_end_navigated driver us h :
  navigated (trace (loop_end E driver us h)) = navigated (trace h) ++ us.
Proof.
  revert h. induction us as [|url us IH]; intros h.
  - simpl. by rewrite app_nil_r.
  - rewrite loop_end_cons, IH, after_url_navigated.
    by rewrite <- app_assoc.
Qed.

Lemma loop_end_closed driver us h :
  closed (trace (loop_end E driver us h)) = closed (trace h).
Proof.
  revert h. induction us as [|url us IH]; intros h; [done|].
  by rewrite loop_end_cons, IH, after_url_closed.
Qed.

(** ** Creating the session *)

Lemma new_driver_unfold b exe options h :
  new_driver E b exe options h =
    let h' := mkHeap (self h) (trace h ++ [EvLaunch b options exe]) in
    match launch E (trace h) b options exe with
    | Some e => (h', inl e)
    | None => (h', inr (mkDriver b (length (trace h))))
    end.
Proof.
  unfold new_driver, bind, call, ret. simpl.
  destruct (launch E (trace h) b options exe); reflexivity.
Qed.

Lemma _get_driver_unfold h :
  _get_driver E h =
    let options := if headless (self h) then ["--headless"] else [] in
    let exe := executable_path (self h) in
    if decide (lower (browser (self h)) = "chrome") then
      new_driver E Chrome exe options h
    else if decide (lower (browser (self h)) = "firefox") then
      new_driver E Firefox exe options h
    else (h, inl invalid_browser).
Proof.
  unfold _get_driver, bind, get_self, add_argument, raise. simpl.
  repeat case_decide; try reflexivity;
    destruct (executable_path (self h)); reflexivity.
Qed.

Lemma new_driver_self b exe options h :
  self (new_driver E b exe options h).1 = self h.
Proof. rewrite new_driver_unfold. simpl. by case_match. Qed.

Lemma _get_driver_self h : self (_get_driver E h).1 = self h.
Proof.
  rewrite _get_driver_unfold. simpl.
  repeat case_decide; simpl; by rewrite ?new_driver_self.
Qed.

(** Creating the session neither navigates nor closes anything. *)
Lemma _get_driver_navigated h :
  navigated (trace (_get_driver E h).1) = navigated (trace h).
Proof.
  rewrite _get_driver_unfold. simpl.
  repeat case_decide; simpl; rewrite ?new_driver_unfold; simpl;
    repeat case_match; simpl; rewrite ?navigated_app; simpl;
    by rewrite ?app_nil_r.
Qed.

Lemma _get_driver_closed h :
  closed (trace (_get_driver E h).1) = closed (trace h).
Proof.
  rewrite _get_driver_unfold. simpl.
  repeat case_decide; simpl; rewrite ?new_driver_unfold; simpl;
    repeat case_match; simpl; rewrite ?closed_app; simpl;
    by rewrite ?app_nil_r.
Qed.

(** ** The whole of [load] *)

Lemma load_unfold h :
  load E h =
    match _get_driver E h with
    | (h1, inl e) => (h1, inl e)
    | (h1, inr driver) =>
        match for_url E driver (urls (self h1)) [] h1 with
        | (h2, inl e) => (h2, inl e)
        | (h2, inr docs) =>
            let h3 := mkHeap (self h2) (trace h2 ++ [EvQuit driver]) in
            match driver_quit E (trace h2) driver with
            | Some e => (h3, inl e)
            | None => (h3, inr docs)
            end
        end
    end.
Proof.
  unfold load, bind, get_self, quit, call, ret.
  destruct (_get_driver E h) as [h1 [e|driver]]; [reflexivity|]. simpl.
  destruct (for_url E driver (urls (self h1)) [] h1) as [h2 [e|docs]];
    [reflexivity|].
  destruct (driver_quit E (trace h2) driver); reflexivity.
Qed.

(** When [load] returns a list, whatever the policy, the loop went through
    the whole list and the list holds the documents of the attempts that
    succeeded. *)
Lemma load_returns h h1 driver docs :
  _get_driver E h = (h1, inr driver) →
  (load E h).2 = inr docs →
  docs = documents (attempts E driver (urls (self h)) h1).
Proof.
  intros Hd Hload. rewrite load_unfold, Hd in Hload.
  assert (self h1 = self h) as Hs
    by (rewrite <- (_get_driver_self h); by rewrite Hd).
  rewrite Hs in Hload.
  set (us := urls (self h)) in *.
  assert (for_url E driver us [] h1
          = (loop_end E driver us h1, inr (documents (attempts E driver us h1)))
          ∨ ∃ h2 e, for_url E driver us [] h1 = (h2, inl e)) as [Hloop|Hloop].
  { destruct (continue_on_failure (self h1)) eqn:Hc.
    - left. by rewrite for_url_continue.
    - destruct (first_failure (attempts E driver us h1))
        as [Hall|(i & a & e & Hi & Ha & Hbefore)].
      + left. by rewrite for_url_all_ok.
      + right. eexists _, e. by eapply for_url_abort. }
  - rewrite Hloop in Hload. simpl in Hload.
    destruct (driver_quit E _ driver); simpl in Hload; congruence.
  - destruct Hloop as (h2 & e & Hloop). rewrite Hloop in Hload. done.
Qed.

(** ** Logging and skipping failures *)

Lemma _get_driver_keeps_self h h1 driver :
  _get_driver E h = (h1, inr driver) → self h1 = self h.
Proof. intros Hd. rewrite <- (_get_driver_self h). by rewrite Hd. Qed.

Lemma load_continue h h1 driver :
  continue_on_failure (self h) = true →
  _get_driver E h = (h1, inr driver) →
  driver_quit E (trace (loop_end E driver (urls (self h)) h1)) driver = None →
  (load E h).2 = inr (documents (attempts E driver (urls (self h)) h1)).
Proof.
  intros Hc Hd Hq. pose proof (_get_driver_keeps_self h h1 driver Hd) as Hs.
  rewrite load_unfold, Hd, Hs.
  rewrite for_url_continue by congruence. simpl. by rewrite Hq.
Qed.

Lemma load_abort h h1 driver i a e :
  continue_on_failure (self h) = false →
  _get_driver E h = (h1, inr driver) →
  attempts E driver (urls (self h)) h1 !! i = Some a →
  a_result a = inl e →
  Forall (λ b, is_ok (a_result b) = true)
         (take i (attempts E driver (urls (self h)) h1)) →
  load E h = (loop_end E driver (take (S i) (urls (self h))) h1, inl e).
Proof.
  intros Hc Hd Hi Ha Hbefore.
  pose proof (_get_driver_keeps_self h h1 driver Hd) as Hs.
  rewrite load_unfold, Hd, Hs.
  rewrite (for_url_abort driver _ [] h1 i a e); [done|congruence|done|done|].
  intros j b Hj Hb. rewrite Forall_lookup in Hbefore.
  apply (Hbefore j). by rewrite lookup_take_lt.
Qed.

(** C2. With [continue_on_failure] set, a session that starts and closes,
    and a list of N URLs of which M fail, [load] returns the documents of
    the URLs that succeeded: N - M of them, their sources being the
    surviving URLs in the order of the list. *)
Theorem load_skips_failed_urls h h1 driver :
  continue_on_failure (self h) = true →
  _get_driver E h = (h1, inr driver) →
  driver_quit E (trace (loop_end E driver (urls (self h)) h1)) driver = None →
  let rs := attempts E driver (urls (self h)) h1 in
  (load E h).2 = inr (documents rs) ∧
  length (documents rs) = length (urls (self h)) - length (failed rs) ∧
  map source (documents rs) = map Some (survivors rs) ∧
  sublist (survivors rs) (urls (self h)).
Proof.
  intros Hc Hd Hq rs.
  split; [|split; [|split]].
  - by apply load_continue.
  - pose proof (documents_failed_length rs) as Hlen.
    unfold rs in Hlen at 3. rewrite attempts_length in Hlen. lia.
  - pose proof (attempts_metadata driver (urls (self h)) h1) as Hm.
    fold rs in Hm. unfold source.
    rewrite <- (map_map metadata (λ m : gmap string string, m !! "source")).
    rewrite Hm, map_map. apply map_ext. intros url.
    by rewrite lookup_singleton_eq.
  - pose proof (survivors_sublist rs) as Hsub. unfold rs in Hsub at 2.
    by rewrite attempts_urls in Hsub.
Qed.

(** ** Aborting on the first failure *)

(** C3. With [continue_on_failure] unset, the first attempt that fails ends
    [load]: its exception is what [load] raises, so no list of documents is
    returned, and the browser was sent to the URLs up to and including the
    failing one and to none after it. *)
Theorem load_aborts_on_first_failure h h1 driver i a e :
  continue_on_failure (self h) = false →
  _get_driver E h = (h1, inr driver) →
  attempts E driver (urls (self h)) h1 !! i = Some a →
  a_result a = inl e →
  Forall (λ b, is_ok (a_result b) = true)
         (take i (attempts E driver (urls (self h)) h1)) →
  load E h = (loop_end E driver (take (S i) (urls (self h))) h1, inl e) ∧
  navigated (trace (load E h).1)
  = navigated (trace h) ++ take (S i) (urls (self h)).
Proof.
  intros Hc Hd Hi Ha Hbefore.
  pose proof (load_abort h h1 driver i a e Hc Hd Hi Ha Hbefore) as Hl.
  split; [done|]. rewrite Hl. simpl.
  rewrite loop_end_navigated. f_equal.
  rewrite <- (_get_driver_navigated h). by rewrite Hd.
Qed.

(** ** The documents *)

(** C4. The metadata of every document [load] returns is the dict with the
    one key [source], whose value is the URL the document was fetched
    from: the i-th document carries the i-th surviving URL. *)
Theorem load_metadata_source h h1 driver docs :
  _get_driver E h = (h1, inr driver) →
  (load E h).2 = inr docs →
  let rs := attempts E driver (urls (self h)) h1 in
  map metadata docs = map (λ url, {[ "source" := url ]}) (survivors rs) ∧
  sublist (survivors rs) (urls (self h)) ∧
  Forall (λ doc, ∃ url, url ∈ urls (self h) ∧
                        metadata doc = {[ "source" := url ]}) docs.
Proof.
  intros Hd Hload rs.
  pose proof (load_returns h h1 driver docs Hd Hload) as ->. fold rs.
  assert (sublist (survivors rs) (urls (self h))) as Hsub.
  { pose proof (survivors_sublist rs) as Hsub. unfold rs in Hsub at 2.
    by rewrite attempts_urls in Hsub. }
  pose proof (attempts_metadata driver (urls (self h)) h1) as Hm. fold rs in Hm.
  split; [done|]. split; [done|].
  apply Forall_forall. intros doc Hdoc.
  apply (list_elem_of_fmap_2 metadata) in Hdoc.
  change (metadata <$> documents rs) with (map metadata (documents rs)) in Hdoc.
  rewrite Hm in Hdoc.
  apply list_elem_of_fmap in Hdoc as (url & Hurl & Hin).
  exists url. split; [|done].
  by eapply elem_of_sublist.
Qed.

(** C6. The text of every document [load] returns is what the partitioner
    made of the page source read for its URL: the elements it found, each
    turned into a string, joined by two newlines. *)
Theorem load_page_content h h1 driver docs :
  _get_driver E h = (h1, inr driver) →
  (load E h).2 = inr docs →
  Forall (λ doc,
    ∃ a html,
      a ∈ attempts E driver (urls (self h)) h1 ∧
      a_result a = inr doc ∧
      driver_page_source E
        (trace (a_before a) ++ [EvGet driver (a_url a)]) driver = inr html ∧
      rendered_text E html (page_content doc)) docs.
Proof.
  intros Hd Hload.
  pose proof (load_returns h h1 driver docs Hd Hload) as ->.
  apply Forall_forall. intros doc Hdoc.
  unfold documents in Hdoc. apply list_elem_of_omap in Hdoc as (a & Ha & Hr).
  destruct (a_result a) as [|doc'] eqn:Hres; [done|]. injection Hr as ->.
  pose proof (attempts_rendered driver (urls (self h)) h1) as Hall.
  rewrite Forall_forall in Hall.
  destruct (Hall a Ha doc Hres) as (html & Hsrc & Htext).
  by exists a, html.
Qed.

(** ** A failed URL *)

Lemma fetch_document_fails driver url h e :
  (fetch_document E driver url h).2 = inl e ↔ ∃ s, fails_at E driver url h e s.
Proof.
  rewrite fetch_document_unfold. simpl. split.
  - destruct (driver_get E (trace h) driver url) as [e'|] eqn:Hg.
    { intros [= ->]. by exists Navigation. }
    destruct (driver_page_source E _ driver) as [e'|html] eqn:Hs.
    { intros [= ->]. by exists ReadingSource. }
    destruct (partition_html E html) as [e'|elements] eqn:Hp.
    { intros [= ->]. exists Partitioning. split; [done|]. by exists html. }
    destruct (comprehension _ elements) as [e'|strs] eqn:Hc; [|done].
    intros [= ->]. exists Assembly. split; [done|]. by exists html, elements.
  - intros [[] Hs]; simpl in Hs.
    + by rewrite Hs.
    + destruct Hs as [-> ->]. done.
    + destruct Hs as (-> & html & -> & ->). done.
    + destruct Hs as (-> & html & elements & -> & -> & ->). done.
Qed.

Lemma attempts_lookup driver us h i a :
  attempts E driver us h !! i = Some a →
  us !! i = Some (a_url a) ∧
  a_result a = (fetch_document E driver (a_url a) (a_before a)).2.
Proof.
  revert h i. induction us as [|url us IH]; intros h i Hi; [done|].
  destruct i as [|i]; simpl in Hi.
  - injection Hi as <-. done.
  - by apply IH in Hi.
Qed.

Lemma documents_delete_failed (rs : list Attempt) i a e :
  rs !! i = Some a → a_result a = inl e →
  documents (delete i rs) = documents rs.
Proof.
  revert i. induction rs as [|b rs IH]; intros i Hi Ha; [done|].
  destruct i as [|i]; simpl in *.
  - injection Hi as ->. unfold documents. simpl. by rewrite Ha.
  - unfold documents in *. simpl. by rewrite (IH i).
Qed.

Lemma memoryless_fetch driver url h h' :
  memoryless E →
  (fetch_document E driver url h).2 = (fetch_document E driver url h').2.
Proof.
  intros (Hg & Hp & _). rewrite !fetch_document_unfold. simpl.
  rewrite (Hg (trace h) (trace h')), (Hp (trace h) (trace h')).
  repeat case_match; done.
Qed.

Lemma memoryless_documents driver us h h' :
  memoryless E →
  documents (attempts E driver us h) = documents (attempts E driver us h').
Proof.
  intros Hm. revert h h'. induction us as [|url us IH]; intros h h'; [done|].
  unfold documents in *. simpl.
  rewrite (memoryless_fetch driver url h h' Hm).
  destruct (fetch_document E driver url h').2; [apply IH|].
  f_equal. apply IH.
Qed.

Lemma memoryless_delete_failed driver us h h' i a e :
  memoryless E →
  attempts E driver us h !! i = Some a → a_result a = inl e →
  documents (attempts E driver (delete i us) h')
  = documents (attempts E driver us h).
Proof.
  intros Hm. revert h h' i.
  induction us as [|url us IH]; intros h h' i Hi Ha; [done|].
  destruct i as [|i]; simpl in Hi.
  - injection Hi as <-. simpl in Ha. simpl delete.
    unfold documents at 2. simpl. rewrite Ha.
    by apply memoryless_documents.
  - simpl delete. unfold documents. simpl.
    rewrite (memoryless_fetch driver url h' h Hm).
    destruct (fetch_document E driver url h).2.
    + by eapply IH.
    + f_equal. by eapply IH.
Qed.

Lemma _get_driver_with_urls us h h1 driver :
  _get_driver E h = (h1, inr driver) →
  _get_driver E (with_urls us h) = (with_urls us h1, inr driver).
Proof.
  rewrite !_get_driver_unfold. simpl.
  repeat case_decide; rewrite ?new_driver_unfold; simpl;
    repeat case_match; intros [= <- <-]; unfold with_urls; simpl; congruence.
Qed.

Lemma loop_end_closes_alike driver us us' h h' :
  memoryless E →
  driver_quit E (trace (loop_end E driver us h)) driver
  = driver_quit E (trace (loop_end E driver us' h')) driver.
Proof. intros (_ & _ & Hq). apply Hq. Qed.

(** A list comes back in spite of a failed attempt only when failures are
    logged and skipped, and the session then closed without an error. *)
Lemma load_returns_after_failure h h1 driver docs i a e :
  _get_driver E h = (h1, inr driver) →
  (load E h).2 = inr docs →
  attempts E driver (urls (self h)) h1 !! i = Some a →
  a_result a = inl e →
  continue_on_failure (self h) = true ∧
  driver_quit E (trace (loop_end E driver (urls (self h)) h1)) driver = None.
Proof.
  intros Hd Hload Hi Ha.
  pose proof (_get_driver_keeps_self h h1 driver Hd) as Hs.
  rewrite load_unfold, Hd, Hs in Hload.
  destruct (continue_on_failure (self h)) eqn:Hc.
  - split; [done|].
    rewrite for_url_continue in Hload by congruence. simpl in Hload.
    by destruct (driver_quit E _ driver).
  - exfalso.
    destruct (first_failure (attempts E driver (urls (self h)) h1))
      as [Hall|(j & b & e' & Hj & Hb & Hbefore)].
    + rewrite Forall_lookup in Hall. specialize (Hall i a Hi).
      by rewrite Ha in Hall.
    + rewrite (for_url_abort driver _ [] h1 j b e') in Hload;
        [done|congruence|done|done|done].
Qed.

(** C8. When [load] returns a list although an attempt failed, at
    whichever of the four steps, that attempt has added nothing to it: the
    list is made of the documents of the other attempts alone, and, where
    what a page gives does not depend on the pages visited before it, it is
    the list [load] returns for the URLs without the failed one. *)
Theorem failed_url_contributes_nothing h h1 driver docs i a e :
  _get_driver E h = (h1, inr driver) →
  (load E h).2 = inr docs →
  attempts E driver (urls (self h)) h1 !! i = Some a →
  (∃ s, fails_at E driver (a_url a) (a_before a) e s) →
  let rs := attempts E driver (urls (self h)) h1 in
  a_result a = inl e ∧
  docs = documents (delete i rs) ∧
  (memoryless E →
   (load E (with_urls (delete i (urls (self h))) h)).2 = inr docs).
Proof.
  intros Hd Hload Hi Hs rs.
  destruct (attempts_lookup _ _ _ _ _ Hi) as [Hurl Hres].
  apply fetch_document_fails in Hs. rewrite <- Hres in Hs.
  pose proof (load_returns h h1 driver docs Hd Hload) as Hdocs. fold rs in Hdocs.
  destruct (load_returns_after_failure h h1 driver docs i a e Hd Hload Hi Hs)
    as [Hc Hq].
  split; [done|]. split.
  - by rewrite (documents_delete_failed rs i a e).
  - intros Hm.
    set (us' := delete i (urls (self h))).
    pose proof (_get_driver_with_urls us' h h1 driver Hd) as Hd'.
    assert (driver_quit E
              (trace (loop_end E driver (urls (self (with_urls us' h)))
                               (with_urls us' h1))) driver = None) as Hq'.
    { by rewrite (loop_end_closes_alike driver _ (urls (self h)) _ h1 Hm). }
    pose proof (load_continue (with_urls us' h) (with_urls us' h1)
                  driver Hc Hd' Hq') as Hload'.
    rewrite Hload', Hdocs. f_equal. simpl. unfold us'.
    by eapply memoryless_delete_failed.
Qed.

(** ** The browser name *)

(** C5, as the code has it. When the lower-cased browser name is neither
    ["chrome"] nor ["firefox"], [load] raises the [ValueError] of
    [_get_driver] and leaves the world as it found it: no browser is
    started, no URL is navigated to and no document is produced. *)
Theorem load_rejects_unsupported_browser h :
  lower (browser (self h)) ≠ "chrome" →
  lower (browser (self h)) ≠ "firefox" →
  _get_driver E h = (h, inl invalid_browser) ∧
  load E h = (h, inl invalid_browser) ∧
  exn_type invalid_browser = "ValueError" ∧
  navigated (trace (load E h).1) = navigated (trace h).
Proof.
  intros Hc Hf.
  assert (_get_driver E h = (h, inl invalid_browser)) as Hd.
  { rewrite _get_driver_unfold. simpl. by repeat case_decide. }
  assert (load E h = (h, inl invalid_browser)) as Hl
    by (by rewrite load_unfold, Hd).
  split; [done|]. split; [done|]. split; [done|]. by rewrite Hl.
Qed.

Lemma new_driver_changes_world b exe options h r :
  new_driver E b exe options h ≠ (h, r).
Proof.
  rewrite new_driver_unfold. cbv zeta. intros Heq.
  assert (trace h ++ [EvLaunch b options exe] = trace h) as Htr.
  { destruct (launch E (trace h) b options exe);
      injection Heq as Hh _; by apply (f_equal trace) in Hh. }
  apply (f_equal length) in Htr. rewrite length_app in Htr. simpl in Htr. lia.
Qed.

(** C10. The browser name is matched after lower-casing: creating the
    session for a name gives the same outcome and the same events as
    creating it for the lower-cased name, a name that lowers to ["chrome"]
    starts Chrome and one that lowers to ["firefox"] starts Firefox, and
    the invalid-browser error is raised exactly for the names that lower to
    neither. *)
Theorem _get_driver_ignores_case h :
  let name := lower (browser (self h)) in
  let options := if headless (self h) then ["--headless"] else [] in
  ((_get_driver E h).2 = (_get_driver E (with_browser name h)).2 ∧
   trace (_get_driver E h).1 = trace (_get_driver E (with_browser name h)).1) ∧
  (name = "chrome" →
   _get_driver E h = new_driver E Chrome (executable_path (self h)) options h) ∧
  (name = "firefox" →
   _get_driver E h = new_driver E Firefox (executable_path (self h)) options h) ∧
  (_get_driver E h = (h, inl invalid_browser) ↔
   name ≠ "chrome" ∧ name ≠ "firefox").
Proof.
  intros name options. split; [|split; [|split]].
  - rewrite !_get_driver_unfold. unfold name. simpl.
    rewrite lower_idemp.
    repeat case_decide; rewrite ?new_driver_unfold; simpl;
      repeat case_match; done.
  - intros Hn. rewrite _get_driver_unfold. simpl. fold name.
    by rewrite decide_True.
  - intros Hn. rewrite _get_driver_unfold. simpl. fold name.
    rewrite decide_False by (by rewrite Hn). by rewrite decide_True.
  - rewrite _get_driver_unfold. simpl. fold name. split.
    + repeat case_decide; try done; intros Heq;
        by apply new_driver_changes_world in Heq.
    + intros [Hc Hf]. by repeat case_decide.
Qed.

(** ** The receiver *)

Lemma for_url_self driver us docs h :
  self (for_url E driver us docs h).1 = self h.
Proof.
  revert docs h. induction us as [|url us IH]; intros docs h; [done|].
  rewrite for_url_cons.
  pose proof (fetch_document_self driver url h) as Hs.
  destruct (fetch_document E driver url h) as [h1 [e|doc]]; simpl in Hs.
  - pose proof (on_failure_self url docs e h1) as Hs'.
    destruct (on_failure url docs e h1) as [h2 [e'|docs']]; simpl in Hs'.
    + simpl. congruence.
    + rewrite IH. congruence.
  - rewrite IH. congruence.
Qed.

Lemma load_self h : self (load E h).1 = self h.
Proof.
  rewrite load_unfold.
  pose proof (_get_driver_self h) as Hs.
  destruct (_get_driver E h) as [h1 [e|driver]]; simpl in Hs; [done|].
  pose proof (for_url_self driver (urls (self h1)) [] h1) as Hs'.
  destruct (for_url E driver (urls (self h1)) [] h1) as [h2 [e|docs]];
    simpl in Hs'.
  - simpl. congruence.
  - simpl. case_match; simpl; congruence.
Qed.

(** C9. The five fields are what the constructor was given, and neither
    [load] nor [_get_driver] changes any of them, whether they return or
    raise. *)
Theorem configuration_is_read_only h :
  (∀ us c b exe hl,
     __init__ (mkPackages true true) us c b exe hl
     = inr (mkLoader us c b exe hl)) ∧
  self (load E h).1 = self h ∧
  self (_get_driver E h).1 = self h ∧
  (let s := self (load E h).1 in
   urls s = urls (self h) ∧
   continue_on_failure s = continue_on_failure (self h) ∧
   browser s = browser (self h) ∧
   executable_path s = executable_path (self h) ∧
   headless s = headless (self h)) ∧
  (let s := self (_get_driver E h).1 in
   urls s = urls (self h) ∧
   continue_on_failure s = continue_on_failure (self h) ∧
   browser s = browser (self h) ∧
   executable_path s = executable_path (self h) ∧
   headless s = headless (self h)).
Proof.
  split; [done|]. rewrite load_self, _get_driver_self. done.
Qed.

(** ** Closing the session *)

(** When [load] returns, the session it created was closed, once. *)
Lemma load_closes_once_on_return h h1 driver docs :
  _get_driver E h = (h1, inr driver) →
  (load E h).2 = inr docs →
  closed (trace (load E h).1) = closed (trace h) ++ [driver].
Proof.
  intros Hd Hload.
  assert (closed (trace h1) = closed (trace h)) as Hc1
    by (rewrite <- (_get_driver_closed h); by rewrite Hd).
  rewrite load_unfold, Hd in Hload |- *.
  destruct (continue_on_failure (self h1)) eqn:Hc.
  - rewrite for_url_continue in Hload |- * by done. simpl in *.
    destruct (driver_quit E _ driver); [done|]. simpl.
    by rewrite closed_app, loop_end_closed, Hc1.
  - destruct (first_failure (attempts E driver (urls (self h1)) h1))
      as [Hall|(i & a & e & Hi & Ha & Hbefore)].
    + rewrite for_url_all_ok in Hload |- * by done. simpl in *.
      destruct (driver_quit E _ driver); [done|]. simpl.
      by rewrite closed_app, loop_end_closed, Hc1.
    + by rewrite (for_url_abort driver _ [] h1 i a e) in Hload.
Qed.

(** When [load] aborts on a failed URL, the session it created is left
    open: [driver.quit()] is not reached. *)
Lemma load_abort_leaves_session_open h h1 driver i a e :
  continue_on_failure (self h) = false →
  _get_driver E h = (h1, inr driver) →
  attempts E driver (urls (self h)) h1 !! i = Some a →
  a_result a = inl e →
  Forall (λ b, is_ok (a_result b) = true)
         (take i (attempts E driver (urls (self h)) h1)) →
  (load E h).2 = inl e ∧
  closed (trace (load E h).1) = closed (trace h).
Proof.
  intros Hc Hd Hi Ha Hbefore.
  pose proof (load_abort h h1 driver i a e Hc Hd Hi Ha Hbefore) as Hl.
  rewrite Hl. simpl. split; [done|].
  rewrite loop_end_closed. rewrite <- (_get_driver_closed h). by rewrite Hd.
Qed.

End Properties.

(** ** The constructor *)

(** C7. The constructor raises a [ValueError] that names the package when
    selenium cannot be imported, whatever else holds, the like for
    unstructured when selenium can, and with both at hand it returns the
    object whose five fields are the five arguments. *)
Theorem __init___checks_dependencies us c b exe hl :
  (∀ u, __init__ (mkPackages false u) us c b exe hl
        = inl (ValueError
            "selenium package not found, please install it with `pip install selenium`")) ∧
  __init__ (mkPackages true false) us c b exe hl
  = inl (ValueError
      "unstructured package not found, please install it with `pip install unstructured`") ∧
  (∃ o, __init__ (mkPackages true true) us c b exe hl = inr o ∧
        urls o = us ∧ continue_on_failure o = c ∧ browser o = b ∧
        executable_path o = exe ∧ headless o = hl).
Proof.
  split; [done|]. split; [done|].
  eexists. split; [reflexivity|]. done.
Qed.

(** ** The test double at work *)

Lemma test_double_memoryless : memoryless TestDouble.env.
Proof.
  split; [|split]; intros; simpl; try reflexivity.
  unfold TestDouble.last_url. rewrite !navigated_app. simpl.
  by rewrite !last_snoc.
Qed.

(** The example of the design document: of three URLs the second cannot be
    reached, and the documents of the first and the third come back. *)
Lemma load_skips_failed_urls_example :
  (load TestDouble.env (TestDouble.start true "chrome")).2
  = inr [TestDouble.doc_a; TestDouble.doc_b] ∧
  length [TestDouble.doc_a; TestDouble.doc_b] = 3 - 1 ∧
  map source [TestDouble.doc_a; TestDouble.doc_b]
  = [Some "https://a.test"; Some "https://b.test"].
Proof.
  destruct (load_skips_failed_urls TestDouble.env
              (TestDouble.start true "chrome")
              (mkHeap (TestDouble.loader true "chrome")
                      [EvLaunch Chrome ["--headless"] None])
              (mkDriver Chrome 0))
    as (Hload & Hlen & Hsrc & _); [reflexivity|reflexivity|reflexivity|].
  split; [exact Hload|]. split; [exact Hlen|exact Hsrc].
Defined.

Lemma load_aborts_on_first_failure_example :
  load TestDouble.env (TestDouble.start false "chrome")
  = (mkHeap (TestDouble.loader false "chrome")
            [EvLaunch Chrome ["--headless"] None;
             EvGet (mkDriver Chrome 0) "https://a.test";
             EvPageSource (mkDriver Chrome 0);
             EvGet (mkDriver Chrome 0) "https://bad.test"],
     inl TestDouble.unreachable) ∧
  navigated (trace (load TestDouble.env (TestDouble.start false "chrome")).1)
  = ["https://a.test"; "https://bad.test"].
Proof.
  apply (load_aborts_on_first_failure TestDouble.env
           (TestDouble.start false "chrome")
           (mkHeap (TestDouble.loader false "chrome")
                   [EvLaunch Chrome ["--headless"] None])
           (mkDriver Chrome 0) 1
           (mkAttempt "https://bad.test"
              (mkHeap (TestDouble.loader false "chrome")
                      [EvLaunch Chrome ["--headless"] None;
                       EvGet (mkDriver Chrome 0) "https://a.test";
                       EvPageSource (mkDriver Chrome 0)])
              (inl TestDouble.unreachable))
           TestDouble.unreachable);
    [reflexivity|reflexivity|reflexivity|reflexivity|].
  vm_compute. repeat constructor.
Defined.

Lemma load_metadata_source_example :
  map metadata [TestDouble.doc_a; TestDouble.doc_b]
  = [ {[ "source" := "https://a.test" ]}; {[ "source" := "https://b.test" ]} ].
Proof.
  destruct (load_metadata_source TestDouble.env
              (TestDouble.start true "chrome")
              (mkHeap (TestDouble.loader true "chrome")
                      [EvLaunch Chrome ["--headless"] None])
              (mkDriver Chrome 0)
              [TestDouble.doc_a; TestDouble.doc_b])
    as (Hm & _); [reflexivity|reflexivity|].
  exact Hm.
Defined.

Lemma load_page_content_example :
  Forall (λ doc,
    ∃ a html,
      a ∈ attempts TestDouble.env (mkDriver Chrome 0) TestDouble.three_urls
            (mkHeap (TestDouble.loader true "chrome")
                    [EvLaunch Chrome ["--headless"] None]) ∧
      a_result a = inr doc ∧
      driver_page_source TestDouble.env
        (trace (a_before a) ++ [EvGet (mkDriver Chrome 0) (a_url a)])
        (mkDriver Chrome 0) = inr html ∧
      rendered_text TestDouble.env html (page_content doc))
    [TestDouble.doc_a; TestDouble.doc_b].
Proof.
  apply (load_page_content TestDouble.env
           (TestDouble.start true "chrome")
           (mkHeap (TestDouble.loader true "chrome")
                   [EvLaunch Chrome ["--headless"] None])
           (mkDriver Chrome 0)
           [TestDouble.doc_a; TestDouble.doc_b]);
    reflexivity.
Defined.

Lemma failed_url_contributes_nothing_example :
  [TestDouble.doc_a; TestDouble.doc_b]
  = documents
      (delete 1 (attempts TestDouble.env (mkDriver Chrome 0)
                   TestDouble.three_urls
                   (mkHeap (TestDouble.loader true "chrome")
                           [EvLaunch Chrome ["--headless"] None]))) ∧
  (load TestDouble.env
     (with_urls ["https://a.test"; "https://b.test"]
                (TestDouble.start true "chrome"))).2
  = inr [TestDouble.doc_a; TestDouble.doc_b].
Proof.
  destruct (failed_url_contributes_nothing TestDouble.env
              (TestDouble.start true "chrome")
              (mkHeap (TestDouble.loader true "chrome")
                      [EvLaunch Chrome ["--headless"] None])
              (mkDriver Chrome 0)
              [TestDouble.doc_a; TestDouble.doc_b] 1
              (mkAttempt "https://bad.test"
                 (mkHeap (TestDouble.loader true "chrome")
                         [EvLaunch Chrome ["--headless"] None;
                          EvGet (mkDriver Chrome 0) "https://a.test";
                          EvPageSource (mkDriver Chrome 0)])
                 (inl TestDouble.unreachable))
              TestDouble.unreachable)
    as (_ & Hdocs & Hsame);
    [reflexivity|reflexivity|reflexivity| |].
  - exists Navigation. reflexivity.
  - split; [exact Hdocs|]. exact (Hsame test_double_memoryless).
Defined.

Lemma load_rejects_unsupported_browser_example :
  load TestDouble.env (TestDouble.start true "opera")
  = (TestDouble.start true "opera", inl invalid_browser).
Proof.
  destruct (load_rejects_unsupported_browser TestDouble.env
              (TestDouble.start true "opera"))
    as (_ & Hload & _); [discriminate|discriminate|].
  exact Hload.
Defined.

(** C5, as it is worded, fails for a name such as ["Chrome"]: it is other
    than ["chrome"] and ["firefox"], yet no error is raised, the browser is
    started and sent to the URLs, and documents come back. *)
Lemma capitalised_browser_is_accepted :
  browser (self (TestDouble.start true "Chrome")) ≠ "chrome" ∧
  browser (self (TestDouble.start true "Chrome")) ≠ "firefox" ∧
  (load TestDouble.env (TestDouble.start true "Chrome")).2
  = inr [TestDouble.doc_a; TestDouble.doc_b] ∧
  launched (trace (load TestDouble.env (TestDouble.start true "Chrome")).1)
  = [(Chrome, ["--headless"], None)] ∧
  navigated (trace (load TestDouble.env (TestDouble.start true "Chrome")).1)
  = TestDouble.three_urls.
Proof.
  split; [discriminate|]. split; [discriminate|].
  split; [reflexivity|]. split; reflexivity.
Qed.

(** C1 at work on the abort path: with [continue_on_failure] unset and a
    host that cannot be reached, [load] starts one browser, raises, and
    has closed no session. *)
Example load_abort_never_quits :
  (load TestDouble.env (TestDouble.start false "chrome")).2
  = inl TestDouble.unreachable ∧
  launched (trace (load TestDouble.env (TestDouble.start false "chrome")).1)
  = [(Chrome, ["--headless"], None)] ∧
  closed (trace (load TestDouble.env (TestDouble.start false "chrome")).1)
  = [] ∧
  close_count (mkDriver Chrome 0)
    (trace (load TestDouble.env (TestDouble.start false "chrome")).1) = 0.
Proof. repeat split; reflexivity. Qed.

(** On the two paths that return, the same session is closed once. *)
Example load_return_quits_once :
  close_count (mkDriver Chrome 0)
    (trace (load TestDouble.env (TestDouble.start true "chrome")).1) = 1 ∧
  close_count (mkDriver Chrome 0)
    (trace (load TestDouble.env
              (with_urls ["https://a.test"; "https://b.test"]
                         (TestDouble.start false "chrome"))).1) = 1.
Proof. split; reflexivity. Qed.

(** * Further properties *)

Lemma logged_app tr tr' : logged (tr ++ tr') = logged tr ++ logged tr'.
Proof. apply omap_app. Qed.

Lemma drivers_used_app tr tr' :
  drivers_used (tr ++ tr') = drivers_used tr ++ drivers_used tr'.
Proof. apply omap_app. Qed.

Lemma loop_events_launched driver (evs : Trace) :
  Forall (λ ev, loop_event driver ev = true) evs → launched evs = [].
Proof.
  induction 1 as [|ev evs Hev _ IH]; [done|].
  destruct ev; simpl in *; done.
Qed.

Lemma loop_events_closed driver (evs : Trace) :
  Forall (λ ev, loop_event driver ev = true) evs → closed evs = [].
Proof.
  induction 1 as [|ev evs Hev _ IH]; [done|].
  destruct ev; simpl in *; done.
Qed.

Lemma loop_events_drivers driver (evs : Trace) :
  Forall (λ ev, loop_event driver ev = true) evs →
  Forall (λ d, d = driver) (drivers_used evs).
Proof.
  induction 1 as [|ev evs Hev _ IH]; [constructor|].
  destruct ev; simpl in *; try done;
    apply bool_decide_eq_true in Hev; by constructor.
Qed.

Lemma attempts_app (E : Env) driver us us' h :
  attempts E driver (us ++ us') h
  = attempts E driver us h ++ attempts E driver us' (loop_end E driver us h).
Proof.
  revert h. induction us as [|url us IH]; intros h; [done|].
  simpl. by rewrite IH.
Qed.

Lemma documents_app (rs rs' : list Attempt) :
  documents (rs ++ rs') = documents rs ++ documents rs'.
Proof. apply omap_app. Qed.

Lemma failures_failed (rs : list Attempt) : map fst (failures rs) = failed rs.
Proof.
  induction rs as [|a rs IH]; [done|].
  unfold failures, failed in *. simpl.
  destruct (a_result a); simpl; [f_equal|]; exact IH.
Qed.

Lemma all_ok_survivors (rs : list Attempt) :
  Forall (λ a, is_ok (a_result a) = true) rs → survivors rs = map a_url rs.
Proof.
  induction 1 as [|a rs Ha _ IH]; [done|].
  unfold survivors in *. simpl. rewrite Ha. simpl. f_equal. exact IH.
Qed.

Section Further.

Variable E : Env.

Implicit Types (h : Heap) (driver : WebDriver) (url : string).
Implicit Types (us : list string) (docs : list Document) (e : Exn).

(** ** What each step adds to the trace *)

Lemma fetch_document_events driver url h :
  ∃ evs, trace (fetch_document E driver url h).1 = trace h ++ evs ∧
         Forall (λ ev, loop_event driver ev = true) evs.
Proof.
  rewrite fetch_document_unfold. cbv zeta.
  assert (loop_event driver (EvGet driver url) = true) as Hg
    by (simpl; by rewrite bool_decide_eq_true).
  assert (loop_event driver (EvPageSource driver) = true) as Hp
    by (simpl; by rewrite bool_decide_eq_true).
  repeat case_match; simpl;
    first [ exists [EvGet driver url]; split; [done|by repeat constructor]
          | exists [EvGet driver url; EvPageSource driver];
            split; [by rewrite <- app_assoc|by repeat constructor] ].
Qed.

Lemma on_failure_events driver url docs e h :
  ∃ evs, trace (on_failure url docs e h).1 = trace h ++ evs ∧
         Forall (λ ev, loop_event driver ev = true) evs.
Proof.
  destruct (continue_on_failure (self h)) eqn:Hc.
  - rewrite on_failure_continue by done. simpl.
    eexists. split; [done|]. by repeat constructor.
  - rewrite on_failure_abort by done. exists []. split; [|constructor].
    by rewrite app_nil_r.
Qed.

Lemma for_url_events driver us docs h :
  ∃ evs, trace (for_url E driver us docs h).1 = trace h ++ evs ∧
         Forall (λ ev, loop_event driver ev = true) evs.
Proof.
  revert docs h. induction us as [|url us IH]; intros docs h.
  - exists []. split; [|constructor]. simpl. by rewrite app_nil_r.
  - rewrite for_url_cons.
    destruct (fetch_document_events driver url h) as (evs1 & Ht1 & Hall1).
    destruct (fetch_document E driver url h) as [h1 [e|doc]]; simpl in Ht1.
    + destruct (on_failure_events driver url docs e h1)
        as (evs2 & Ht2 & Hall2).
      destruct (on_failure url docs e h1) as [h2 [e'|docs']]; simpl in Ht2.
      * simpl. exists (evs1 ++ evs2). rewrite Ht2, Ht1, <- app_assoc.
        split; [done|]. by apply Forall_app.
      * destruct (IH docs' h2) as (evs3 & Ht3 & Hall3).
        exists (evs1 ++ evs2 ++ evs3).
        rewrite Ht3, Ht2, Ht1, <- !app_assoc.
        split; [done|]. by repeat apply Forall_app_2.
    + destruct (IH (docs ++ [doc]) h1) as (evs3 & Ht3 & Hall3).
      exists (evs1 ++ evs3). rewrite Ht3, Ht1, <- app_assoc.
      split; [done|]. by apply Forall_app.
Qed.

(** After the session is created [load] acts on the world through the
    loop and, when the loop runs to its end, one call of [quit]. *)
Lemma load_events h h1 driver :
  _get_driver E h = (h1, inr driver) →
  ∃ evs, Forall (λ ev, loop_event driver ev = true) evs ∧
         (trace (load E h).1 = trace h1 ++ evs ∨
          trace (load E h).1 = trace h1 ++ evs ++ [EvQuit driver]).
Proof.
  intros Hd. rewrite load_unfold, Hd.
  destruct (for_url_events driver (urls (self h1)) [] h1) as (evs & Ht & Hall).
  exists evs. split; [done|].
  destruct (for_url E driver (urls (self h1)) [] h1) as [h2 [e|docs]];
    simpl in Ht.
  - left. done.
  - right. cbv zeta. case_match; simpl; by rewrite Ht, <- app_assoc.
Qed.

(** ** The branch on the browser name *)

Lemma _get_driver_kind h b :
  browser_kind (browser (self h)) = Some b →
  _get_driver E h
  = new_driver E b (executable_path (self h)) (driver_options (self h)) h.
Proof.
  unfold browser_kind. rewrite _get_driver_unfold. cbv zeta.
  unfold driver_options. repeat case_decide; by intros [= <-].
Qed.

Lemma _get_driver_launched h h1 driver :
  _get_driver E h = (h1, inr driver) →
  browser_kind (browser (self h)) = Some (kind driver) ∧
  session driver = length (trace h) ∧
  trace h1 = trace h ++ [EvLaunch (kind driver) (driver_options (self h))
                                   (executable_path (self h))] ∧
  launch E (trace h) (kind driver) (driver_options (self h))
         (executable_path (self h)) = None.
Proof.
  destruct (browser_kind (browser (self h))) as [b|] eqn:Hk.
  - rewrite (_get_driver_kind h b Hk), new_driver_unfold. cbv zeta.
    destruct (launch E (trace h) b _ _) eqn:Hl; [done|].
    intros [= <- <-]. done.
  - unfold browser_kind in Hk. rewrite _get_driver_unfold. cbv zeta.
    by repeat case_decide.
Qed.

(** When the loop runs to its end, [load] asks the session to quit and
    returns the documents unless that raises. *)
Lemma load_loop_completes h h1 driver :
  _get_driver E h = (h1, inr driver) →
  continue_on_failure (self h) = true ∨
  Forall (λ a, is_ok (a_result a) = true)
         (attempts E driver (urls (self h)) h1) →
  load E h
  = (mkHeap (self h)
            (trace (loop_end E driver (urls (self h)) h1) ++ [EvQuit driver]),
     match driver_quit E (trace (loop_end E driver (urls (self h)) h1)) driver
     with
     | Some e => inl e
     | None => inr (documents (attempts E driver (urls (self h)) h1))
     end).
Proof.
  intros Hd Hrun. pose proof (_get_driver_keeps_self E h h1 driver Hd) as Hs.
  rewrite load_unfold, Hd, Hs.
  assert (for_url E driver (urls (self h)) [] h1
          = (loop_end E driver (urls (self h)) h1,
             inr (documents (attempts E driver (urls (self h)) h1)))) as ->.
  { destruct Hrun as [Hc|Hall].
    - by rewrite for_url_continue by congruence.
    - by rewrite for_url_all_ok. }
  cbv zeta. rewrite loop_end_self, Hs. by case_match.
Qed.

Lemma load_returns_completes h h1 driver docs :
  _get_driver E h = (h1, inr driver) →
  (load E h).2 = inr docs →
  continue_on_failure (self h) = true ∨
  Forall (λ a, is_ok (a_result a) = true)
         (attempts E driver (urls (self h)) h1).
Proof.
  intros Hd Hload.
  destruct (continue_on_failure (self h)) eqn:Hc; [by left|right].
  destruct (first_failure (attempts E driver (urls (self h)) h1))
    as [Hall|(j & b & e' & Hj & Hb & Hbefore)]; [done|].
  pose proof (_get_driver_keeps_self E h h1 driver Hd) as Hs.
  rewrite load_unfold, Hd, Hs in Hload.
  rewrite (for_url_abort E driver _ [] h1 j b e') in Hload;
    [done|congruence|done|done|done].
Qed.

Lemma fetch_document_logged driver url h :
  logged (trace (fetch_document E driver url h).1) = logged (trace h).
Proof.
  rewrite fetch_document_unfold. simpl.
  repeat case_match; simpl; rewrite ?logged_app; simpl;
    by rewrite ?app_nil_r.
Qed.

Lemma after_url_logged driver url h :
  continue_on_failure (self h) = true →
  logged (trace (after_url E driver url h))
  = logged (trace h)
    ++ match (fetch_document E driver url h).2 with
       | inl e => [log_line url e]
       | inr _ => []
       end.
Proof.
  intros Hc. unfold after_url.
  pose proof (fetch_document_logged driver url h) as Hl.
  pose proof (fetch_document_self E driver url h) as Hs.
  destruct (fetch_document E driver url h) as [h1 [e|doc]]; simpl in *.
  - rewrite on_failure_continue by congruence. simpl.
    by rewrite logged_app, Hl.
  - by rewrite Hl, app_nil_r.
Qed.

Lemma loop_end_logged driver us h :
  continue_on_failure (self h) = true →
  logged (trace (loop_end E driver us h))
  = logged (trace h)
    ++ map (λ p, log_line p.1 p.2) (failures (attempts E driver us h)).
Proof.
  revert h. induction us as [|url us IH]; intros h Hc.
  - simpl. by rewrite app_nil_r.
  - rewrite loop_end_cons, IH by (by rewrite after_url_self).
    rewrite after_url_logged by done.
    simpl attempts. unfold failures. simpl.
    destruct (fetch_document E driver url h).2; simpl;
      by rewrite <- app_assoc.
Qed.

Lemma for_url_never_logs driver us docs h :
  continue_on_failure (self h) = false →
  logged (trace (for_url E driver us docs h).1) = logged (trace h).
Proof.
  revert docs h. induction us as [|url us IH]; intros docs h Hc; [done|].
  rewrite for_url_cons.
  pose proof (fetch_document_logged driver url h) as Hl.
  pose proof (fetch_document_self E driver url h) as Hs.
  destruct (fetch_document E driver url h) as [h1 [e|doc]]; simpl in *.
  - rewrite on_failure_abort by congruence. done.
  - rewrite IH by congruence. done.
Qed.

Lemma _get_driver_logged h :
  logged (trace (_get_driver E h).1) = logged (trace h).
Proof.
  rewrite _get_driver_unfold. simpl.
  repeat case_decide; simpl; rewrite ?new_driver_unfold; simpl;
    repeat case_match; simpl; rewrite ?logged_app; simpl;
    by rewrite ?app_nil_r.
Qed.

(** ** The session *)

(** X1. Whenever [load] returns its list, the last thing it did was to
    call [quit] on the driver it created, and that is the one time this
    session was asked to close during the call. *)
Theorem load_return_closes_session_last h h1 driver docs :
  _get_driver E h = (h1, inr driver) →
  (load E h).2 = inr docs →
  trace (load E h).1
  = trace (loop_end E driver (urls (self h)) h1) ++ [EvQuit driver] ∧
  closed (trace (load E h).1) = closed (trace h) ++ [driver] ∧
  close_count driver (trace (load E h).1)
  = close_count driver (trace h) + 1.
Proof.
  intros Hd Hload.
  pose proof (load_returns_completes h h1 driver docs Hd Hload) as Hrun.
  rewrite (load_loop_completes h h1 driver Hd Hrun). simpl.
  assert (closed (trace h1) = closed (trace h)) as Hc1
    by (rewrite <- (_get_driver_closed E h); by rewrite Hd).
  split; [done|].
  assert (closed (trace (loop_end E driver (urls (self h)) h1)
                  ++ [EvQuit driver]) = closed (trace h) ++ [driver]) as Hcl
    by (by rewrite closed_app, loop_end_closed, Hc1).
  split; [done|].
  unfold close_count. rewrite Hcl, filter_app, length_app.
  rewrite filter_cons_True by done. done.
Qed.

(** X2. When failures are fatal and a URL fails, [load] raises with the
    browser it started still running: one process was launched, with the
    options of the configuration, and no session was asked to close. *)
Theorem load_abort_leaves_browser_running h h1 driver i a e :
  continue_on_failure (self h) = false →
  _get_driver E h = (h1, inr driver) →
  attempts E driver (urls (self h)) h1 !! i = Some a →
  a_result a = inl e →
  Forall (λ b, is_ok (a_result b) = true)
         (take i (attempts E driver (urls (self h)) h1)) →
  (load E h).2 = inl e ∧
  launched (trace (load E h).1)
  = launched (trace h)
    ++ [(kind driver, driver_options (self h), executable_path (self h))] ∧
  closed (trace (load E h).1) = closed (trace h).
Proof.
  intros Hc Hd Hi Ha Hbefore.
  pose proof (load_abort E h h1 driver i a e Hc Hd Hi Ha Hbefore) as Hl.
  destruct (_get_driver_launched h h1 driver Hd) as (_ & _ & Ht1 & _).
  destruct (load_events h h1 driver Hd) as (evs & Hall & Hev).
  rewrite Hl in Hev |- *. simpl in *. split; [done|].
  assert (closed (trace (loop_end E driver (take (S i) (urls (self h))) h1))
          = closed (trace h)) as Hcl.
  { rewrite loop_end_closed, <- (_get_driver_closed E h). by rewrite Hd. }
  split; [|done].
  destruct Hev as [Hev|Hev].
  - rewrite Hev, Ht1, !launched_app, (loop_events_launched driver evs Hall).
    simpl. by rewrite app_nil_r.
  - exfalso. apply (f_equal closed) in Hev.
    rewrite Hcl, Ht1, !closed_app, (loop_events_closed driver evs Hall) in Hev.
    simpl in Hev. rewrite app_nil_r in Hev.
    apply (f_equal length) in Hev. rewrite length_app in Hev. simpl in Hev. lia.
Qed.


(** X4. When the browser cannot be started, [load] raises what the driver
    constructor raised, having navigated nowhere and closed nothing. *)
Theorem load_propagates_launch_failure h b e :
  browser_kind (browser (self h)) = Some b →
  launch E (trace h) b (driver_options (self h)) (executable_path (self h))
  = Some e →
  load E h
  = (mkHeap (self h)
       (trace h ++ [EvLaunch b (driver_options (self h))
                             (executable_path (self h))]),
     inl e) ∧
  navigated (trace (load E h).1) = navigated (trace h) ∧
  closed (trace (load E h).1) = closed (trace h).
Proof.
  intros Hk Hl.
  assert (load E h
          = (mkHeap (self h)
               (trace h ++ [EvLaunch b (driver_options (self h))
                                     (executable_path (self h))]),
             inl e)) as Hload.
  { rewrite load_unfold, (_get_driver_kind h b Hk), new_driver_unfold.
    cbv zeta. by rewrite Hl. }
  split; [done|]. rewrite Hload. simpl.
  rewrite navigated_app, closed_app. simpl. by rewrite !app_nil_r.
Qed.

(** X5. When the loop has run to its end and [quit] raises, [load] raises
    that exception in place of returning: every URL was navigated to, and
    the documents that were fetched are not returned. *)
Theorem load_raises_when_quit_raises h h1 driver e :
  _get_driver E h = (h1, inr driver) →
  continue_on_failure (self h) = true ∨
  Forall (λ a, is_ok (a_result a) = true)
         (attempts E driver (urls (self h)) h1) →
  driver_quit E (trace (loop_end E driver (urls (self h)) h1)) driver
  = Some e →
  (load E h).2 = inl e ∧
  navigated (trace (load E h).1) = navigated (trace h) ++ urls (self h) ∧
  closed (trace (load E h).1) = closed (trace h) ++ [driver].
Proof.
  intros Hd Hrun Hq.
  rewrite (load_loop_completes h h1 driver Hd Hrun), Hq. simpl.
  split; [done|].
  rewrite navigated_app, closed_app, loop_end_navigated, loop_end_closed.
  rewrite <- (_get_driver_navigated E h), <- (_get_driver_closed E h), Hd.
  simpl. by rewrite app_nil_r.
Qed.

(** X6. With an empty list of URLs [load] still starts a browser and
    closes it, and returns the empty list. *)
Theorem load_of_no_urls h h1 driver :
  urls (self h) = [] →
  _get_driver E h = (h1, inr driver) →
  driver_quit E (trace h1) driver = None →
  load E h
  = (mkHeap (self h)
       (trace h ++ [EvLaunch (kind driver) (driver_options (self h))
                             (executable_path (self h));
                    EvQuit driver]),
     inr []).
Proof.
  intros Hus Hd Hq.
  destruct (_get_driver_launched h h1 driver Hd) as (_ & _ & Ht1 & _).
  rewrite (load_loop_completes h h1 driver Hd); [|right; rewrite Hus; constructor].
  rewrite Hus. simpl. rewrite Hq, Ht1, <- app_assoc. done.
Qed.

(** ** The log *)

(** X7. With failures logged and skipped, [load] logs one error line for
    each URL that failed, in the order of the list, made of the URL and of
    the message of its exception, and logs nothing else. *)
Theorem load_logs_each_failure h h1 driver :
  continue_on_failure (self h) = true →
  _get_driver E h = (h1, inr driver) →
  let rs := attempts E driver (urls (self h)) h1 in
  logged (trace (load E h).1)
  = logged (trace h) ++ map (λ p, log_line p.1 p.2) (failures rs) ∧
  map fst (failures rs) = failed rs.
Proof.
  intros Hc Hd rs.
  pose proof (_get_driver_keeps_self E h h1 driver Hd) as Hs.
  split; [|apply failures_failed].
  rewrite (load_loop_completes h h1 driver Hd) by (by left). simpl.
  rewrite logged_app, loop_end_logged by congruence. simpl.
  rewrite app_nil_r. f_equal.
  rewrite <- (_get_driver_logged h). by rewrite Hd.
Qed.

(** X8. With failures fatal, [load] never logs anything, on any path. *)
Theorem load_never_logs_when_failures_are_fatal h :
  continue_on_failure (self h) = false →
  logged (trace (load E h).1) = logged (trace h).
Proof.
  intros Hc. rewrite load_unfold.
  pose proof (_get_driver_logged h) as Hl.
  pose proof (_get_driver_self E h) as Hs.
  destruct (_get_driver E h) as [h1 [e|driver]]; simpl in *; [done|].
  pose proof (for_url_never_logs driver (urls (self h1)) [] h1) as Hl'.
  destruct (for_url E driver (urls (self h1)) [] h1) as [h2 [e|docs]];
    simpl in *.
  - rewrite Hl' by congruence. done.
  - case_match; simpl; rewrite logged_app, Hl' by congruence; simpl;
      by rewrite app_nil_r.
Qed.

(** ** Navigation *)

(** X9. With failures logged and skipped, the browser is sent to every
    URL of the list once, in the order of the list, whether the URL fails
    or not: a failed URL is not tried again and stops nothing after it. *)
Theorem load_navigates_each_url_once h h1 driver :
  continue_on_failure (self h) = true →
  _get_driver E h = (h1, inr driver) →
  navigated (trace (load E h).1) = navigated (trace h) ++ urls (self h).
Proof.
  intros Hc Hd.
  rewrite (load_loop_completes h h1 driver Hd) by (by left). simpl.
  rewrite navigated_app, loop_end_navigated. simpl. rewrite app_nil_r.
  f_equal. rewrite <- (_get_driver_navigated E h). by rewrite Hd.
Qed.

(** X10. Every call on a driver that [load] makes is made on the driver
    it created: one session serves all the URLs. *)
Theorem load_uses_one_session h h1 driver :
  _get_driver E h = (h1, inr driver) →
  ∃ ds, drivers_used (trace (load E h).1) = drivers_used (trace h) ++ ds ∧
        Forall (λ d, d = driver) ds.
Proof.
  intros Hd.
  destruct (_get_driver_launched h h1 driver Hd) as (_ & _ & Ht1 & _).
  destruct (load_events h h1 driver Hd) as (evs & Hall & [Hev|Hev]).
  - exists (drivers_used evs). split; [|by apply loop_events_drivers].
    rewrite Hev, Ht1, !drivers_used_app. simpl. by rewrite app_nil_r.
  - exists (drivers_used evs ++ [driver]). split.
    + rewrite Hev, Ht1, !drivers_used_app. simpl. by rewrite app_nil_r.
    + apply Forall_app. split; [by apply loop_events_drivers|].
      by repeat constructor.
Qed.

(** ** The documents *)

(** X11. A page in which the partitioner finds no element is not a
    failure: its attempt gives the document with the empty text and the
    URL as source, and that document is in the list [load] returns. *)
Theorem empty_page_gives_empty_document h h1 driver docs i a html :
  _get_driver E h = (h1, inr driver) →
  (load E h).2 = inr docs →
  attempts E driver (urls (self h)) h1 !! i = Some a →
  driver_get E (trace (a_before a)) driver (a_url a) = None →
  driver_page_source E (trace (a_before a) ++ [EvGet driver (a_url a)]) driver
  = inr html →
  partition_html E html = inr [] →
  a_result a = inr (mkDocument "" {[ "source" := a_url a ]}) ∧
  docs !! length (documents (take i (attempts E driver (urls (self h)) h1)))
  = Some (mkDocument "" {[ "source" := a_url a ]}).
Proof.
  intros Hd Hload Hi Hg Hsrc Hp.
  destruct (attempts_lookup E _ _ _ _ _ Hi) as [_ Hres].
  rewrite fetch_document_unfold in Hres. cbv zeta in Hres.
  rewrite Hg, Hsrc, Hp in Hres. simpl in Hres.
  split; [done|].
  rewrite (load_returns E h h1 driver docs Hd Hload).
  rewrite <- (take_drop_middle _ i a Hi) at 2.
  rewrite documents_app. unfold documents at 3. simpl. rewrite Hres.
  by rewrite lookup_app_r, Nat.sub_diag.
Qed.

(** X12. When no URL fails and the session closes, [load] returns one
    document for each URL of the list, duplicates included, in the order of
    the list, and it does so under either failure policy. *)
Theorem load_returns_all_when_none_fails h h1 driver :
  _get_driver E h = (h1, inr driver) →
  Forall (λ a, is_ok (a_result a) = true)
         (attempts E driver (urls (self h)) h1) →
  driver_quit E (trace (loop_end E driver (urls (self h)) h1)) driver = None →
  ∃ docs, (load E h).2 = inr docs ∧
          length docs = length (urls (self h)) ∧
          map metadata docs
          = map (λ url, {[ "source" := url ]}) (urls (self h)).
Proof.
  intros Hd Hall Hq.
  exists (documents (attempts E driver (urls (self h)) h1)).
  rewrite (load_loop_completes h h1 driver Hd) by (by right).
  rewrite Hq. simpl. split; [done|].
  rewrite documents_survivors_length, attempts_metadata.
  rewrite (all_ok_survivors _ Hall), attempts_urls. done.
Qed.


(** X14. Where what a page gives does not depend on the pages visited
    before it, loading the concatenation of two lists returns the documents
    of the first list followed by those of the second. *)
Theorem load_of_concatenation h h1 driver us1 us2 :
  memoryless E →
  continue_on_failure (self h) = true →
  _get_driver E h = (h1, inr driver) →
  driver_quit E (trace h1) driver = None →
  ∃ docs1 docs2,
    (load E (with_urls us1 h)).2 = inr docs1 ∧
    (load E (with_urls us2 h)).2 = inr docs2 ∧
    (load E (with_urls (us1 ++ us2) h)).2 = inr (docs1 ++ docs2).
Proof.
  intros Hm Hc Hd Hq.
  assert (∀ us, (load E (with_urls us h)).2
                = inr (documents (attempts E driver us h1))) as Hload.
  { intros us.
    pose proof (_get_driver_with_urls E us h h1 driver Hd) as Hd'.
    rewrite (load_continue E (with_urls us h) (with_urls us h1) driver Hc Hd').
    - simpl. f_equal. by apply memoryless_documents.
    - destruct Hm as (_ & _ & Hquit). by rewrite (Hquit _ (trace h1)). }
  exists (documents (attempts E driver us1 h1)),
         (documents (attempts E driver us2 h1)).
  rewrite !Hload. split; [done|]. split; [done|].
  rewrite attempts_app, documents_app. f_equal. f_equal.
  by apply memoryless_documents.
Qed.

(** X15. The constructor does not look at the browser name: with both
    packages at hand it returns an object for a name that [_get_driver]
    rejects, and the error comes with the first [load], before anything is
    done to the world. *)
Theorem unsupported_browser_is_found_by_load pk us c b exe hl :
  selenium pk = true →
  unstructured pk = true →
  browser_kind b = None →
  ∃ o, __init__ pk us c b exe hl = inr o ∧
       ∀ tr, load E (mkHeap o tr) = (mkHeap o tr, inl invalid_browser).
Proof.
  intros Hs Hu Hk. unfold __init__. rewrite Hs, Hu. simpl.
  eexists. split; [reflexivity|]. intros tr.
  rewrite load_unfold, _get_driver_unfold. cbv zeta. simpl.
  unfold browser_kind in Hk. by repeat case_decide.
Qed.

End Further.

(** ** The further properties on the test doubles *)

Lemma load_return_closes_session_last_example :
  closed (trace (load TestDouble.env (TestDouble.start true "chrome")).1)
  = [mkDriver Chrome 0] ∧
  close_count (mkDriver Chrome 0)
    (trace (load TestDouble.env (TestDouble.start true "chrome")).1) = 1.
Proof.
  destruct (load_return_closes_session_last TestDouble.env
              (TestDouble.start true "chrome")
              (mkHeap (TestDouble.loader true "chrome")
                      [EvLaunch Chrome ["--headless"] None])
              (mkDriver Chrome 0)
              [TestDouble.doc_a; TestDouble.doc_b])
    as (_ & Hcl & Hn); [reflexivity|reflexivity|].
  split; [exact Hcl|exact Hn].
Defined.

Lemma load_abort_leaves_browser_running_example :
  (load TestDouble.env (TestDouble.start false "chrome")).2
  = inl TestDouble.unreachable ∧
  launched (trace (load TestDouble.env (TestDouble.start false "chrome")).1)
  = [(Chrome, ["--headless"], None)] ∧
  closed (trace (load TestDouble.env (TestDouble.start false "chrome")).1)
  = [].
Proof.
  apply (load_abort_leaves_browser_running TestDouble.env
           (TestDouble.start false "chrome")
           (mkHeap (TestDouble.loader false "chrome")
                   [EvLaunch Chrome ["--headless"] None])
           (mkDriver Chrome 0) 1
           (mkAttempt "https://bad.test"
              (mkHeap (TestDouble.loader false "chrome")
                      [EvLaunch Chrome ["--headless"] None;
                       EvGet (mkDriver Chrome 0) "https://a.test";
                       EvPageSource (mkDriver Chrome 0)])
              (inl TestDouble.unreachable))
           TestDouble.unreachable);
    [reflexivity|reflexivity|reflexivity|reflexivity|].
  vm_compute. repeat constructor.
Defined.


Lemma load_propagates_launch_failure_example :
  load Faulty.no_browser (TestDouble.start true "chrome")
  = (mkHeap (TestDouble.loader true "chrome")
            [EvLaunch Chrome ["--headless"] None],
     inl Faulty.not_installed) ∧
  navigated (trace (load Faulty.no_browser (TestDouble.start true "chrome")).1)
  = [] ∧
  closed (trace (load Faulty.no_browser (TestDouble.start true "chrome")).1)
  = [].
Proof.
  apply (load_propagates_launch_failure Faulty.no_browser
           (TestDouble.start true "chrome") Chrome Faulty.not_installed);
    reflexivity.
Defined.

Lemma load_raises_when_quit_raises_example :
  (load Faulty.stuck (TestDouble.start true "chrome")).2 = inl Faulty.gone ∧
  navigated (trace (load Faulty.stuck (TestDouble.start true "chrome")).1)
  = TestDouble.three_urls ∧
  closed (trace (load Faulty.stuck (TestDouble.start true "chrome")).1)
  = [mkDriver Chrome 0].
Proof.
  apply (load_raises_when_quit_raises Faulty.stuck
           (TestDouble.start true "chrome")
           (mkHeap (TestDouble.loader true "chrome")
                   [EvLaunch Chrome ["--headless"] None])
           (mkDriver Chrome 0) Faulty.gone);
    [reflexivity|left; reflexivity|reflexivity].
Defined.

Lemma load_of_no_urls_example :
  load TestDouble.env (with_urls [] (TestDouble.start true "chrome"))
  = (with_urls []
       (mkHeap (TestDouble.loader true "chrome")
               [EvLaunch Chrome ["--headless"] None;
                EvQuit (mkDriver Chrome 0)]),
     inr []).
Proof.
  apply (load_of_no_urls TestDouble.env
           (with_urls [] (TestDouble.start true "chrome"))
           (with_urls []
              (mkHeap (TestDouble.loader true "chrome")
                      [EvLaunch Chrome ["--headless"] None]))
           (mkDriver Chrome 0));
    reflexivity.
Defined.

Lemma load_logs_each_failure_example :
  logged (trace (load TestDouble.env (TestDouble.start true "chrome")).1)
  = ["Error fetching or processing https://bad.test, exception: net::ERR_NAME_NOT_RESOLVED"].
Proof.
  destruct (load_logs_each_failure TestDouble.env
              (TestDouble.start true "chrome")
              (mkHeap (TestDouble.loader true "chrome")
                      [EvLaunch Chrome ["--headless"] None])
              (mkDriver Chrome 0))
    as (Hlog & _); [reflexivity|reflexivity|].
  exact Hlog.
Defined.

Lemma load_never_logs_when_failures_are_fatal_example :
  logged (trace (load TestDouble.env (TestDouble.start false "chrome")).1)
  = [].
Proof.
  apply (load_never_logs_when_failures_are_fatal TestDouble.env
           (TestDouble.start false "chrome")).
  reflexivity.
Defined.

Lemma load_navigates_each_url_once_example :
  navigated (trace (load TestDouble.env (TestDouble.start true "chrome")).1)
  = ["https://a.test"; "https://bad.test"; "https://b.test"].
Proof.
  apply (load_navigates_each_url_once TestDouble.env
           (TestDouble.start true "chrome")
           (mkHeap (TestDouble.loader true "chrome")
                   [EvLaunch Chrome ["--headless"] None])
           (mkDriver Chrome 0));
    reflexivity.
Defined.

Lemma load_uses_one_session_example :
  ∃ ds,
    drivers_used
      (trace (load TestDouble.env (TestDouble.start true "chrome")).1)
    = drivers_used (trace (TestDouble.start true "chrome")) ++ ds ∧
    Forall (λ d, d = mkDriver Chrome 0) ds.
Proof.
  apply (load_uses_one_session TestDouble.env
           (TestDouble.start true "chrome")
           (mkHeap (TestDouble.loader true "chrome")
                   [EvLaunch Chrome ["--headless"] None])
           (mkDriver Chrome 0)).
  reflexivity.
Defined.

Lemma empty_page_gives_empty_document_example :
  (load TestDouble.env
     (with_urls ["https://a.test"; "https://empty.test"]
                (TestDouble.start true "chrome"))).2
  = inr [TestDouble.doc_a;
         mkDocument "" {[ "source" := "https://empty.test" ]}] ∧
  [TestDouble.doc_a; mkDocument "" {[ "source" := "https://empty.test" ]}] !! 1
  = Some (mkDocument "" {[ "source" := "https://empty.test" ]}).
Proof.
  destruct (empty_page_gives_empty_document TestDouble.env
              (with_urls ["https://a.test"; "https://empty.test"]
                         (TestDouble.start true "chrome"))
              (with_urls ["https://a.test"; "https://empty.test"]
                 (mkHeap (TestDouble.loader true "chrome")
                         [EvLaunch Chrome ["--headless"] None]))
              (mkDriver Chrome 0)
              [TestDouble.doc_a;
               mkDocument "" {[ "source" := "https://empty.test" ]}]
              1
              (mkAttempt "https://empty.test"
                 (with_urls ["https://a.test"; "https://empty.test"]
                    (mkHeap (TestDouble.loader true "chrome")
                            [EvLaunch Chrome ["--headless"] None;
                             EvGet (mkDriver Chrome 0) "https://a.test";
                             EvPageSource (mkDriver Chrome 0)]))
                 (inr (mkDocument "" {[ "source" := "https://empty.test" ]})))
              "")
    as (_ & Hin); [reflexivity..|].
  split; [reflexivity|exact Hin].
Defined.

Lemma load_returns_all_when_none_fails_example :
  ∃ docs,
    (load TestDouble.env
       (with_urls ["https://a.test"; "https://a.test"]
                  (TestDouble.start false "chrome"))).2 = inr docs ∧
    length docs = 2 ∧
    map metadata docs
    = [ {[ "source" := "https://a.test" ]};
        {[ "source" := "https://a.test" ]} ].
Proof.
  apply (load_returns_all_when_none_fails TestDouble.env
           (with_urls ["https://a.test"; "https://a.test"]
                      (TestDouble.start false "chrome"))
           (with_urls ["https://a.test"; "https://a.test"]
              (mkHeap (TestDouble.loader false "chrome")
                      [EvLaunch Chrome ["--headless"] None]))
           (mkDriver Chrome 0));
    [reflexivity| |reflexivity].
  vm_compute. repeat constructor.
Defined.


Lemma load_of_concatenation_example :
  ∃ docs1 docs2,
    (load TestDouble.env
       (with_urls ["https://a.test"; "https://bad.test"]
                  (TestDouble.start true "chrome"))).2 = inr docs1 ∧
    (load TestDouble.env
       (with_urls ["https://b.test"] (TestDouble.start true "chrome"))).2
    = inr docs2 ∧
    (load TestDouble.env
       (with_urls (["https://a.test"; "https://bad.test"] ++ ["https://b.test"])
                  (TestDouble.start true "chrome"))).2
    = inr (docs1 ++ docs2).
Proof.
  apply (load_of_concatenation TestDouble.env
           (TestDouble.start true "chrome")
           (mkHeap (TestDouble.loader true "chrome")
                   [EvLaunch Chrome ["--headless"] None])
           (mkDriver Chrome 0));
    [exact test_double_memoryless|reflexivity|reflexivity|reflexivity].
Defined.

Lemma unsupported_browser_is_found_by_load_example :
  ∃ o,
    __init__ (mkPackages true true) TestDouble.three_urls true "opera" None true
    = inr o ∧
    ∀ tr, load TestDouble.env (mkHeap o tr)
          = (mkHeap o tr, inl invalid_browser).
Proof.
  apply (unsupported_browser_is_found_by_load TestDouble.env
           (mkPackages true true) TestDouble.three_urls true "opera" None true);
    reflexivity.
Defined.
